(** * ts-turbo: Snapshot, URL helpers and the View render pipeline

    A shallow embedding of [src/core/snapshot.ts], of the URL helpers
    [getAnchor] / [getRequestURL] / [toCacheKey] of [src/core/url.ts], and of
    the render state machine of [View], with the properties the
    specification states about them. *)

From Stdlib Require Import ZArith Lia Bool List Ascii String Sorted.
From stdpp Require Import base option gmap strings list fin_maps.
Import ListNotations.

Local Open Scope string_scope.
Local Open Scope list_scope.

(** ** JavaScript strings

    A JavaScript string is a finite sequence of code units; it is embedded
    as a Rocq [string], one character per code unit (the 8-bit range). *)

Module JsString.

Definition len (s : string) : Z := Z.of_nat (String.length s).

(** [s.slice(b, e)]: negative indices count from the end, and both ends
    are clamped to [0 .. s.length]. *)
Definition clamp_index (s : string) (i : Z) : Z :=
  if (i <? 0)%Z then Z.max (len s + i) 0 else Z.min i (len s).

Definition slice (s : string) (b e : Z) : string :=
  let from := clamp_index s b in
  let to := clamp_index s e in
  String.substring (Z.to_nat from) (Z.to_nat (Z.max (to - from) 0)) s.

(** [s.slice(b)]: the end defaults to [s.length]. *)
Definition slice_from (s : string) (b : Z) : string := slice s b (len s).

(** A string is truthy when it is not empty. *)
Definition truthy (s : string) : bool :=
  match s with EmptyString => false | String _ _ => true end.

(** The line terminators that [.] does not match in a regular expression
    without the [s] flag (LF and CR; U+2028 and U+2029 lie outside the
    8-bit range). *)
Definition is_line_terminator (c : ascii) : bool :=
  (Ascii.eqb c "010" || Ascii.eqb c "013")%char.

Fixpoint no_line_terminator (s : string) : bool :=
  match s with
  | EmptyString => true
  | String c rest => negb (is_line_terminator c) && no_line_terminator rest
  end.

(** [s.match] with the pattern "hash sign, any run of non-terminator
    characters (captured), end of input": the match starts at the leftmost
    hash sign from which the run reaches the end of the input; the result
    is capture group 1. *)
Fixpoint match_hash_to_end (s : string) : option string :=
  match s with
  | EmptyString => None
  | String c rest =>
      if Ascii.eqb c "#" && no_line_terminator rest then Some rest
      else match_hash_to_end rest
  end.

End JsString.

(** ** URL helpers ([src/core/url.ts]) *)

Module Url.
Import JsString.

(** [URLLike = { href: string; hash?: string }]; a [URL] object is a
    [URLLike] whose [hash] is always present. *)
Record URLLike := { href : string; hash : option string }.

(** [getAnchor]: the fragment of [url.hash] when that is present and not
    empty, otherwise whatever follows [#] in [url.href]. *)
Definition getAnchor (url : URLLike) : option string :=
  match hash url with
  | Some h =>
      if truthy h && (0 <? len h)%Z then Some (slice_from h 1)
      else match_hash_to_end (if truthy (href url) then href url else EmptyString)
  | None => match_hash_to_end (if truthy (href url) then href url else EmptyString)
  end.

(** [getRequestURL]: [href] without the anchor and its [#]. *)
Definition getRequestURL (url : URLLike) : string :=
  match getAnchor url with
  | Some anchor => slice (href url) 0 (- (len anchor + 1))
  | None => href url
  end.

Definition toCacheKey (url : URLLike) : string := getRequestURL url.

(** The [hash] of a [URL] object is either empty or the trailing part of
    [href] that starts at the fragment's [#]. *)
Definition hash_agrees (url : URLLike) : Prop :=
  match hash url with
  | None => True
  | Some h =>
      h = EmptyString \/ exists p frag, h = String "#" frag /\ href url = p +:+ h
  end.

End Url.

(** ** Completion of a call: a normal result or a thrown exception *)

Inductive JsError := SyntaxError.

Inductive Completion (A : Type) :=
| Normal (a : A)
| Throw (e : JsError).
Arguments Normal {A} a.
Arguments Throw {A} e.

Definition cbind {A B : Type} (c : Completion A) (k : A -> Completion B)
  : Completion B :=
  match c with
  | Normal a => k a
  | Throw e => Throw e
  end.

#[global] Instance Completion_bind : MBind Completion :=
  fun A B k c => cbind c k.
#[global] Instance Completion_ret : MRet Completion := @Normal.

(** ** The subtree a Snapshot looks at

    The element tree as it stands at the instant of a query.  [uid] is the
    identity of the element object; attributes are kept in source order with
    lower-case names, as an HTML document stores them; only element children
    are recorded. *)

Module Dom.

#[local] Set Warnings "-register-all".

Inductive Element :=
| Elem (uid : nat) (localName : string)
       (attributes : list (string * string)) (children : list Element).

Definition uid (e : Element) : nat :=
  match e with Elem u _ _ _ => u end.
Definition localName (e : Element) : string :=
  match e with Elem _ n _ _ => n end.
Definition attributes (e : Element) : list (string * string) :=
  match e with Elem _ _ a _ => a end.
Definition children (e : Element) : list Element :=
  match e with Elem _ _ _ c => c end.

Fixpoint assoc (name : string) (l : list (string * string)) : option string :=
  match l with
  | [] => None
  | (n, v) :: rest => if String.eqb n name then Some v else assoc name rest
  end.

Definition getAttribute (e : Element) (name : string) : option string :=
  assoc name (attributes e).

Definition hasAttribute (e : Element) (name : string) : bool :=
  match getAttribute e name with Some _ => true | None => false end.

(** [element.id] reflects the [id] attribute, and is empty without one. *)
Definition id (e : Element) : string :=
  match getAttribute e "id" with Some v => v | None => EmptyString end.

(** An element followed by its descendants, in document order. *)
Fixpoint subtree (e : Element) : list Element :=
  match e with
  | Elem _ _ _ cs => e :: List.flat_map subtree cs
  end.

(** The descendants of an element in document order; the element itself
    is not one of them. *)
Definition descendants (e : Element) : list Element :=
  List.flat_map subtree (children e).

(** The queries of the platform's [ParentNode] interface, which take the
    selector as text and may throw. *)
Class ParentNode := {
  querySelector : Element -> string -> Completion (option Element);
  querySelectorAll : Element -> string -> Completion (list Element)
}.

End Dom.

(** ** Selectors

    The platform's [querySelector] and [querySelectorAll] take the selector
    as text; [select] and [selectAll] are their embedding.  The fragment of the selector grammar embedded here is: a
    comma-separated list of compound selectors, each an optional type
    selector or [*] followed by [#id], [.class], [[attr]] and
    [[attr=value]] selectors, the value an identifier or a quoted string.
    Text the grammar rejects makes the query throw a [SyntaxError].
    Combinators, pseudo-classes, escapes, attribute modifiers and identifiers
    with characters outside the ASCII range lie outside the fragment and are
    rejected here as well; no property below rests on the rejection of such
    a selector. *)

Module Css.
Import Dom.

Inductive Simple :=
| SUniversal
| SType (name : string)
| SId (name : string)
| SClass (name : string)
| SAttrPresent (name : string)
| SAttrEquals (name value : string).

Definition Compound := list Simple.

(** *** Characters *)

Definition code (c : ascii) : nat := nat_of_ascii c.

Definition is_whitespace (c : ascii) : bool :=
  (Nat.eqb (code c) 32 || Nat.eqb (code c) 9 || Nat.eqb (code c) 10
   || Nat.eqb (code c) 13 || Nat.eqb (code c) 12)%bool.

Definition is_newline (c : ascii) : bool :=
  (Nat.eqb (code c) 10 || Nat.eqb (code c) 13 || Nat.eqb (code c) 12)%bool.

Definition is_letter (c : ascii) : bool :=
  ((Nat.leb 65 (code c) && Nat.leb (code c) 90)
   || (Nat.leb 97 (code c) && Nat.leb (code c) 122))%bool.

Definition is_digit (c : ascii) : bool :=
  (Nat.leb 48 (code c) && Nat.leb (code c) 57)%bool.

(** A character that may start an identifier: a letter or [_]. *)
Definition is_name_start (c : ascii) : bool :=
  (is_letter c || Nat.eqb (code c) 95)%bool.

(** A character that may continue an identifier. *)
Definition is_name_char (c : ascii) : bool :=
  (is_name_start c || is_digit c || Nat.eqb (code c) 45)%bool.

(** A character that stands for itself inside a quoted string: anything
    but a backslash, a line break or NUL (the closing quote is handled by
    the reader). *)
Definition is_string_char (c : ascii) : bool :=
  negb (Nat.eqb (code c) 92 || is_newline c || Nat.eqb (code c) 0)%bool.

Definition lower (c : ascii) : ascii :=
  if (Nat.leb 65 (code c) && Nat.leb (code c) 90)%bool
  then ascii_of_nat (code c + 32) else c.

Fixpoint lowercase (s : string) : string :=
  match s with
  | EmptyString => EmptyString
  | String c r => String (lower c) (lowercase r)
  end.

(** *** Readers: each consumes a prefix of the text and returns the rest *)

Fixpoint skip_ws (s : string) : string :=
  match s with
  | String c r => if is_whitespace c then skip_ws r else s
  | EmptyString => EmptyString
  end.

(** The longest run of identifier characters. *)
Fixpoint read_name (s : string) : string * string :=
  match s with
  | String c r =>
      if is_name_char c
      then let (n, r') := read_name r in (String c n, r')
      else (EmptyString, s)
  | EmptyString => (EmptyString, EmptyString)
  end.

(** Whether the text starts an identifier: a name-start character, or a
    hyphen followed by a name-start character or a second hyphen. *)
Definition starts_ident (s : string) : bool :=
  match s with
  | String c r =>
      if is_name_start c then true
      else if Nat.eqb (code c) 45 then
        match r with
        | String d _ => (is_name_start d || Nat.eqb (code d) 45)%bool
        | EmptyString => false
        end
      else false
  | EmptyString => false
  end.

Definition read_ident (s : string) : option (string * string) :=
  if starts_ident s then Some (read_name s) else None.

(** The contents of a quoted string up to the closing quote [q]; the end
    of the text closes an open string. *)
Fixpoint read_string (q : ascii) (s : string) : option (string * string) :=
  match s with
  | EmptyString => Some (EmptyString, EmptyString)
  | String c r =>
      if Ascii.eqb c q then Some (EmptyString, r)
      else if is_string_char c then
        match read_string q r with
        | Some (v, r') => Some (String c v, r')
        | None => None
        end
      else None
  end.

(** The closing bracket of an attribute selector; the end of the text
    closes an open bracket. *)
Definition read_close (s : string) : option string :=
  match skip_ws s with
  | EmptyString => Some EmptyString
  | String c r => if Ascii.eqb c "]" then Some r else None
  end.

(** The value of an attribute selector and its closing bracket. *)
Definition read_value (name : string) (s : string) : option (Simple * string) :=
  match s with
  | EmptyString => None
  | String q r =>
      let value :=
        if (Ascii.eqb q "'" || Nat.eqb (code q) 34)%bool
        then read_string q r
        else read_ident s in
      match value with
      | Some (v, r') =>
          match read_close r' with
          | Some r'' => Some (SAttrEquals (lowercase name) v, r'')
          | None => None
          end
      | None => None
      end
  end.

(** An attribute selector, after its opening bracket. *)
Definition read_attribute (s : string) : option (Simple * string) :=
  match read_ident (skip_ws s) with
  | None => None
  | Some (name, r) =>
      match skip_ws r with
      | EmptyString => Some (SAttrPresent (lowercase name), EmptyString)
      | String c r1 =>
          if Ascii.eqb c "=" then read_value name (skip_ws r1)
          else if Ascii.eqb c "]" then Some (SAttrPresent (lowercase name), r1)
          else None
      end
  end.

(** One [#id], [.class] or attribute selector, if the text starts one. *)
Inductive Subclass :=
| NoSubclass
| BadSubclass
| ASubclass (s : Simple) (rest : string).

Definition named (mk : string -> Simple) (s : string) : Subclass :=
  match read_ident s with
  | Some (n, r) => ASubclass (mk n) r
  | None => BadSubclass
  end.

Definition read_subclass (s : string) : Subclass :=
  match s with
  | EmptyString => NoSubclass
  | String c r =>
      if Ascii.eqb c "#" then named SId r
      else if Ascii.eqb c "." then named SClass r
      else if Ascii.eqb c "[" then
        match read_attribute r with
        | Some (a, r') => ASubclass a r'
        | None => BadSubclass
        end
      else NoSubclass
  end.

(** The [#id], [.class] and attribute selectors of a compound selector. *)
Fixpoint read_subclasses (fuel : nat) (s : string)
  : option (list Simple * string) :=
  match fuel with
  | O => None
  | S fuel =>
      match read_subclass s with
      | NoSubclass => Some ([], s)
      | BadSubclass => None
      | ASubclass a r =>
          match read_subclasses fuel r with
          | Some (l, r') => Some (a :: l, r')
          | None => None
          end
      end
  end.

(** The optional type selector that opens a compound selector. *)
Definition read_type (s : string) : list Simple * string :=
  match s with
  | EmptyString => ([], s)
  | String c r =>
      if Ascii.eqb c "*" then ([SUniversal], r)
      else match read_ident s with
           | Some (n, r') => ([SType (lowercase n)], r')
           | None => ([], s)
           end
  end.

(** A compound selector: an optional type selector, then the rest; it
    holds at least one simple selector. *)
Definition read_compound (fuel : nat) (s : string)
  : option (Compound * string) :=
  let (type, r) := read_type s in
  match read_subclasses fuel r with
  | Some (l, r') =>
      match type ++ l with
      | [] => None
      | c => Some (c, r')
      end
  | None => None
  end.

Fixpoint read_list (fuel : nat) (s : string) : option (list Compound) :=
  match fuel with
  | O => None
  | S fuel =>
      match read_compound fuel (skip_ws s) with
      | Some (c, r) =>
          match skip_ws r with
          | EmptyString => Some [c]
          | String d r' =>
              if Ascii.eqb d "," then
                match read_list fuel r' with
                | Some l => Some (c :: l)
                | None => None
                end
              else None
          end
      | None => None
      end
  end.

(** Every turn of the two loops consumes a character, so the length of the
    text (plus two, for the empty tail of either loop) is fuel enough: more
    fuel never changes the result. *)
Definition parse (selector : string) : option (list Compound) :=
  read_list (S (S (String.length selector))) selector.

(** *** Matching *)

(** The whitespace-separated tokens of a [class] attribute. *)
Fixpoint tokens_from (acc : string) (s : string) : list string :=
  match s with
  | EmptyString =>
      match acc with EmptyString => [] | _ => [acc] end
  | String c r =>
      if is_whitespace c then
        match acc with
        | EmptyString => tokens_from EmptyString r
        | _ => acc :: tokens_from EmptyString r
        end
      else tokens_from (acc +:+ String c EmptyString) r
  end.

Definition classList (e : Element) : list string :=
  match getAttribute e "class" with
  | Some v => tokens_from EmptyString v
  | None => []
  end.

Definition matches_simple (e : Element) (s : Simple) : bool :=
  match s with
  | SUniversal => true
  | SType n => String.eqb (localName e) n
  | SId i =>
      match getAttribute e "id" with
      | Some v => String.eqb v i
      | None => false
      end
  | SClass c => existsb (String.eqb c) (classList e)
  | SAttrPresent n => hasAttribute e n
  | SAttrEquals n v =>
      match getAttribute e n with
      | Some w => String.eqb w v
      | None => false
      end
  end.

Definition matches_compound (e : Element) (c : Compound) : bool :=
  forallb (matches_simple e) c.

Definition matches (l : list Compound) (e : Element) : bool :=
  existsb (matches_compound e) l.

(** [node.querySelector(selector)]: the first descendant in document
    order that matches any selector of the list, or [null]. *)
Definition select (node : Element) (selector : string)
  : Completion (option Element) :=
  match parse selector with
  | Some l => Normal (List.find (matches l) (descendants node))
  | None => Throw SyntaxError
  end.

(** [node.querySelectorAll(selector)]: all matching descendants, in
    document order. *)
Definition selectAll (node : Element) (selector : string)
  : Completion (list Element) :=
  match parse selector with
  | Some l => Normal (List.filter (matches l) (descendants node))
  | None => Throw SyntaxError
  end.

#[global] Instance selectors : ParentNode :=
  {| querySelector := select; querySelectorAll := selectAll |}.

End Css.

(** ** Snapshot ([src/core/snapshot.ts]) *)

Module Snapshot.
Import Dom JsString.

(** [class Snapshot { readonly element: Element }] *)
Record Snapshot := { element : Element }.

Section Queries.
Context `{ParentNode}.

(** [getElementForAnchor]: [null] for a falsy anchor, otherwise the result
    of querying the selector built around the anchor text. *)
Definition getElementForAnchor (this : Snapshot) (anchor : option string)
  : Completion (option Element) :=
  match anchor with
  | None => Normal None
  | Some a =>
      if negb (truthy a) then Normal None
      else querySelector (element this)
             ("[id='" +:+ a +:+ "'], a[name='" +:+ a +:+ "']")
  end.

(** [hasAnchor]: [false] for a missing or empty anchor, otherwise whether
    [getElementForAnchor] finds an element. *)
Definition hasAnchor (this : Snapshot) (anchor : option string)
  : Completion bool :=
  match anchor with
  | None => Normal false
  | Some a =>
      if String.eqb a EmptyString then Normal false
      else found ← getElementForAnchor this (Some a);
           mret (match found with Some _ => true | None => false end)
  end.

(** The exported function [queryPermanentElementsAll(node)]. *)
Definition queryPermanentElementsAll (node : Element)
  : Completion (list Element) :=
  querySelectorAll node "[id][data-turbo-permanent]".

(** The exported function [getPermanentElementById(node, id)]. *)
Definition getPermanentElementByIdIn (node : Element) (id : string)
  : Completion (option Element) :=
  querySelector node ("#" +:+ id +:+ "[data-turbo-permanent]").

(** The getter [permanentElements] and the method
    [getPermanentElementById(id)] of the class. *)
Definition permanentElements (this : Snapshot) : Completion (list Element) :=
  queryPermanentElementsAll (element this).

Definition getPermanentElementById (this : Snapshot) (id : string)
  : Completion (option Element) :=
  getPermanentElementByIdIn (element this) id.

End Queries.

(** [map[key] = value] on an object created by an object literal: the
    key [__proto__] reaches the prototype accessor and creates no own
    property; any other key becomes (or overwrites) an own property. *)
Definition assign {V : Type} (m : gmap string V) (key : string) (value : V)
  : gmap string V :=
  if String.eqb key "__proto__" then m else <[key := value]> m.

Section Mapping.
Context `{ParentNode}.

(** The body of the loop of [getPermanentElementMapForSnapshot], over the
    permanent elements still to visit. *)
Fixpoint collectPermanentElements (snapshot : Snapshot)
    (remaining : list Element) (permanentElementMap : gmap string (Element * Element))
  : Completion (gmap string (Element * Element)) :=
  match remaining with
  | [] => Normal permanentElementMap
  | currentPermanentElement :: rest =>
      let id := Dom.id currentPermanentElement in
      newPermanentElement ← getPermanentElementById snapshot id;
      collectPermanentElements snapshot rest
        match newPermanentElement with
        | Some new =>
            assign permanentElementMap id (currentPermanentElement, new)
        | None => permanentElementMap
        end
  end.

Definition getPermanentElementMapForSnapshot (this snapshot : Snapshot)
  : Completion (gmap string (Element * Element)) :=
  elements ← permanentElements this;
  collectPermanentElements snapshot elements ∅.

End Mapping.

End Snapshot.

(** ** The live subtree and the [children] accessor

    [Snapshot.children] is [Array.from(this.element.children)]: the
    platform's [children] is a live collection, a view of the element's
    current child list, and [Array.from] creates a new array object.  The
    store holds the child list of every element object and the array objects
    created so far, both by identity. *)

Module LiveDom.

Record Store := {
  childLists : gmap nat (list nat);
  arrays : gmap nat (list nat)
}.

(** A live [HTMLCollection]: it names the element whose children it
    shows, and is read through the store. *)
Inductive HTMLCollection := ChildrenOf (element : nat).

Definition element_children (element : nat) : HTMLCollection :=
  ChildrenOf element.

Definition collection_items (st : Store) (c : HTMLCollection) : list nat :=
  match c with
  | ChildrenOf e => default [] (childLists st !! e)
  end.

(** [Array.from(collection)]: a new array object holding the items the
    collection has now. *)
Definition Array_from (c : HTMLCollection) (st : Store) : nat * Store :=
  let a := fresh (dom (arrays st)) in
  (a, {| childLists := childLists st;
         arrays := <[a := collection_items st c]> (arrays st) |}).

(** The [children] getter of a Snapshot whose [element] is [element]. *)
Definition children (element : nat) (st : Store) : nat * Store :=
  Array_from (element_children element) st.

Definition array_items (st : Store) (a : nat) : option (list nat) :=
  arrays st !! a.

(** Mutations of the live subtree. *)
Inductive Mutation :=
| AppendChild (parent child : nat)
| RemoveChild (parent child : nat).

Definition without (child : nat) (l : list nat) : list nat :=
  List.filter (fun x => negb (Nat.eqb x child)) l.

(** [parent.appendChild(child)] takes the child out of its present parent
    and makes it the last child of [parent]; [parent.removeChild(child)]
    takes it out of [parent]'s children. *)
Definition mutate (st : Store) (m : Mutation) : Store :=
  match m with
  | AppendChild parent child =>
      let detached : gmap nat (list nat) := without child <$> childLists st in
      {| childLists :=
           <[parent := default [] (detached !! parent) ++ [child]]> detached;
         arrays := arrays st |}
  | RemoveChild parent child =>
      {| childLists := alter (without child) parent (childLists st);
         arrays := arrays st |}
  end.

(** What may happen after a call of [children]: a mutation of the live
    subtree, or a further call of the getter, on any element. *)
Inductive Later :=
| Mutates (m : Mutation)
| ReadsChildren (element : nat).

Definition perform (st : Store) (op : Later) : Store :=
  match op with
  | Mutates m => mutate st m
  | ReadsChildren e => snd (children e st)
  end.

Definition perform_all (st : Store) (ops : list Later) : Store :=
  List.fold_left perform ops st.

End LiveDom.

(** ** View: the render state machine

    [src/core/view.ts] is not part of the sources at hand (only its tests
    are), so the pipeline below follows section 4.2 of the specification. *)

Module View.
Import Dom.

(** Modelled from the spec: how an awaited call of the Renderer settles
    (the Renderer is a collaborator; [src/core/view.ts] is absent). *)
Inductive Outcome := Fulfilled | Rejected.

(** Modelled from the spec: the Renderer contract of section 6, as far as
    [View.render] of the absent [src/core/view.ts] reads it. *)
Record Renderer := {
  shouldRender : bool;
  willRender : bool;
  reloadReason : option string;
  isPreview : bool;
  renderMethod : option string
}.

(** Modelled from the spec: the Delegate contract of section 6, as used by
    the absent [src/core/view.ts]; the decision is a function, the
    notifications appear as events. *)
Record Delegate := {
  allowsImmediateRender : Snapshot.Snapshot -> option string -> bool
}.

(** Modelled from the spec: the state of a [View] of the absent
    [src/core/view.ts] that [render] reads and writes. *)
Record View := {
  delegate : Delegate;
  element : Element;
  snapshot : Snapshot.Snapshot;
  renderPromise : bool        (* whether the render-in-flight marker is set *)
}.

(** Modelled from the spec: what [View.render] of the absent
    [src/core/view.ts] does to its collaborators and to its marker. *)
Inductive Event :=
| SetRenderPromise
| AsksAllowsImmediateRender (s : Snapshot.Snapshot) (renderMethod : option string)
| MarkAsPreview (isPreview : bool)
| PrepareToRender
| Render
| ViewRenderedSnapshot (s : Snapshot.Snapshot) (isPreview : bool)
                       (renderMethod : option string)
| PreloadOnLoadLinksForView (root : Element)
| FinishRendering
| ClearRenderPromise
| ViewInvalidated (reason : option string).

(** Modelled from the spec: where a call of [View.render] of the absent
    [src/core/view.ts] stands: at one of the three suspension points of
    section 5, or settled (the View is idle again). *)
Inductive Stage :=
| Suspended
| Preparing
| Rendering
| Settled (o : Outcome).

(** Modelled from the spec: what a call of [View.render] of the absent
    [src/core/view.ts] can be waiting for. *)
Inductive Signal :=
| Resume
| PrepareSettles (o : Outcome)
| RenderSettles (o : Outcome).

Record Call := {
  view : View;
  renderer : Renderer;
  stage : Stage
}.

Definition with_renderPromise (v : View) (b : bool) : View :=
  {| delegate := delegate v; element := element v; snapshot := snapshot v;
     renderPromise := b |}.

Section Pipeline.

(** The specification leaves open whether the finalize notifications
    run after a failed prepare or render; the pipeline is given for
    either choice. *)
Variable finalize_on_failure : bool.

(** Modelled from the spec: [View.invalidate] of the absent
    [src/core/view.ts]; it notifies [delegate.viewInvalidated(reason)]. *)
Definition invalidate (reason : option string) : list Event :=
  [ViewInvalidated reason].

(** Modelled from the spec: step 3 of [View.render] of the absent
    [src/core/view.ts], [prepareToRenderSnapshot]: [markAsPreview], then
    the call of [renderer.prepareToRender()], which is awaited. *)
Definition prepareToRenderSnapshot (r : Renderer) : list Event :=
  [MarkAsPreview (isPreview r); PrepareToRender].

(** Modelled from the spec: step 4 of [View.render] of the absent
    [src/core/view.ts], [renderSnapshot]: the call of
    [renderer.render()], which is awaited. *)
Definition renderSnapshot (r : Renderer) : list Event := [Render].

(** Modelled from the spec: [finishRenderingSnapshot] of the absent
    [src/core/view.ts]; it calls [renderer.finishRendering()]. *)
Definition finishRenderingSnapshot (r : Renderer) : list Event :=
  [FinishRendering].

(** Modelled from the spec: step 5 of [View.render] of the absent
    [src/core/view.ts]: the notifications in their fixed order, then the
    clearing of the marker, which happens on success and on failure. *)
Definition finalize (c : Call) (o : Outcome) : Call * list Event :=
  let v := view c in
  let r := renderer c in
  let notifications :=
    [ViewRenderedSnapshot (snapshot v) (isPreview r) (renderMethod r);
     PreloadOnLoadLinksForView (element v)]
    ++ finishRenderingSnapshot r in
  let ran :=
    match o with
    | Fulfilled => notifications
    | Rejected => if finalize_on_failure then notifications else []
    end in
  ({| view := with_renderPromise v false; renderer := r;
      stage := Settled o |},
   ran ++ [ClearRenderPromise]).

(** Modelled from the spec: [View.render] of the absent
    [src/core/view.ts], up to its first suspension point.  Without
    [shouldRender] it invalidates when [willRender] is set and does
    nothing otherwise; with it, it sets the marker, asks the Delegate,
    and either starts preparing or suspends until resumed. *)
Definition render (v : View) (r : Renderer) : Call * list Event :=
  if shouldRender r then
    let v' := with_renderPromise v true in
    let asked :=
      [SetRenderPromise;
       AsksAllowsImmediateRender (snapshot v) (renderMethod r)] in
    if allowsImmediateRender (delegate v) (snapshot v) (renderMethod r)
    then ({| view := v'; renderer := r; stage := Preparing |},
          asked ++ prepareToRenderSnapshot r)
    else ({| view := v'; renderer := r; stage := Suspended |}, asked)
  else if willRender r then
    ({| view := v; renderer := r; stage := Settled Fulfilled |},
     invalidate (reloadReason r))
  else
    ({| view := v; renderer := r; stage := Settled Fulfilled |}, []).

(** Modelled from the spec: the continuation of [View.render] of the
    absent [src/core/view.ts] at each suspension point.  [resume] is
    one-shot, and a signal the call is not waiting for has no effect. *)
Definition step (c : Call) (s : Signal) : Call * list Event :=
  match stage c, s with
  | Suspended, Resume =>
      ({| view := view c; renderer := renderer c; stage := Preparing |},
       prepareToRenderSnapshot (renderer c))
  | Preparing, PrepareSettles Fulfilled =>
      ({| view := view c; renderer := renderer c; stage := Rendering |},
       renderSnapshot (renderer c))
  | Preparing, PrepareSettles Rejected => finalize c Rejected
  | Rendering, RenderSettles o => finalize c o
  | _, _ => (c, [])
  end.

(** A call driven by a sequence of signals, with everything it does. *)
Fixpoint run (c : Call) (done : list Event) (signals : list Signal)
  : Call * list Event :=
  match signals with
  | [] => (c, done)
  | s :: rest =>
      let (c', evs) := step c s in
      run c' (done ++ evs) rest
  end.

Definition render_then (v : View) (r : Renderer) (signals : list Signal)
  : Call * list Event :=
  let (c, evs) := render v r in run c evs signals.

End Pipeline.

(** The phase of the pipeline an event belongs to: interception (0),
    prepare (1), render (2), and the four finalize steps in their order
    (3 to 6). *)
Definition phase (e : Event) : nat :=
  match e with
  | SetRenderPromise | AsksAllowsImmediateRender _ _ | ViewInvalidated _ => 0
  | MarkAsPreview _ | PrepareToRender => 1
  | Render => 2
  | ViewRenderedSnapshot _ _ _ => 3
  | PreloadOnLoadLinksForView _ => 4
  | FinishRendering => 5
  | ClearRenderPromise => 6
  end.

Definition is_render_work (e : Event) : bool :=
  match e with
  | PrepareToRender | Render => true
  | _ => false
  end.

Definition is_settled (s : Stage) : bool :=
  match s with Settled _ => true | _ => false end.

End View.

(** ** The vocabulary of the properties *)

Module UrlTerms.
Import JsString Url.

(** What it means for [getRequestURL] to strip exactly the fragment and
    its [#]: without an anchor the result is [href]; with one, the result
    followed by [#] and the anchor is [href]. *)
Definition strips_fragment (url : URLLike) : Prop :=
  match getAnchor url with
  | None => getRequestURL url = href url
  | Some anchor => getRequestURL url +:+ String "#" anchor = href url
  end.

End UrlTerms.

Module CssTerms.
Import Dom Css.

(** Text that can be put between single quotes as it is: no single quote,
    backslash, line break or NUL. *)
Fixpoint plain (s : string) : bool :=
  match s with
  | EmptyString => true
  | String c r => negb (Ascii.eqb c "'") && is_string_char c && plain r
  end.

(** Text that [#] can be put in front of as it is: an identifier. *)
Fixpoint all_name_chars (s : string) : bool :=
  match s with
  | EmptyString => true
  | String c r => is_name_char c && all_name_chars r
  end.

Definition is_identifier (s : string) : bool :=
  starts_ident s && all_name_chars s.

End CssTerms.

Module AnchorTerms.
Import Dom Css Snapshot.

(** An element whose identifier is the anchor. *)
Definition has_id (anchor : string) (e : Element) : bool :=
  match getAttribute e "id" with
  | Some v => String.eqb v anchor
  | None => false
  end.

(** An element explicitly named as an anchor with that value. *)
Definition is_named_anchor (anchor : string) (e : Element) : bool :=
  String.eqb (localName e) "a"
  && match getAttribute e "name" with
     | Some v => String.eqb v anchor
     | None => false
     end.

Definition either_match (anchor : string) (e : Element) : bool :=
  has_id anchor e || is_named_anchor anchor e.

(** The resolution in the words of the specification: the first
    descendant whose identifier is the anchor or, failing that, the first
    descendant named as an anchor with that value. *)
Definition identifier_first (this : Snapshot) (anchor : string)
  : option Element :=
  match List.find (has_id anchor) (descendants (element this)) with
  | Some e => Some e
  | None => List.find (is_named_anchor anchor) (descendants (element this))
  end.

Definition named_link : Element :=
  Elem 1 "a" [("name", "top")] [].
Definition heading : Element :=
  Elem 2 "h1" [("id", "top")] [].
Definition page : Snapshot :=
  {| element := Elem 0 "div" [] [named_link; heading] |}.

End AnchorTerms.

Module PermanentTerms.
Import Dom Css Snapshot.

(** A permanent element: it carries an identifier and the preserve
    marker. *)
Definition is_permanent (e : Element) : bool :=
  hasAttribute e "id" && hasAttribute e "data-turbo-permanent".

Definition permanent_in (s : Snapshot) : list Element :=
  List.filter is_permanent (descendants (element s)).

(** The first permanent element of a Snapshot with a given identifier
    (the only one, where identifiers are unique). *)
Definition permanent_with_id (s : Snapshot) (i : string) : option Element :=
  List.find (fun e => is_permanent e && String.eqb (Dom.id e) i)
            (descendants (element s)).

(** One turn of the loop of [getPermanentElementMapForSnapshot], when the
    probe of the other Snapshot returns normally. *)
Definition record_match (other : Snapshot)
    (m : gmap string (Element * Element)) (e : Element)
  : gmap string (Element * Element) :=
  match permanent_with_id other (Dom.id e) with
  | Some new => assign m (Dom.id e) (e, new)
  | None => m
  end.

Definition dotted (uid : nat) : Element :=
  Elem uid "div" [("id", "a.b"); ("data-turbo-permanent", EmptyString)] [].
Definition numbered (uid : nat) : Element :=
  Elem uid "div" [("id", "1"); ("data-turbo-permanent", EmptyString)] [].

Definition current_dotted : Snapshot := {| element := Elem 0 "div" [] [dotted 1] |}.
Definition incoming_dotted : Snapshot := {| element := Elem 2 "div" [] [dotted 3] |}.
Definition current_numbered : Snapshot := {| element := Elem 0 "div" [] [numbered 1] |}.
Definition incoming_numbered : Snapshot := {| element := Elem 2 "div" [] [numbered 3] |}.

End PermanentTerms.

Module ViewTerms.
Import View.

(** The events of a complete, successful pipeline after the Delegate was
    asked. *)
Definition pipeline (v : View) (r : Renderer) : list Event :=
  [MarkAsPreview (isPreview r); PrepareToRender; Render;
   ViewRenderedSnapshot (snapshot v) (isPreview r) (renderMethod r);
   PreloadOnLoadLinksForView (element v);
   FinishRendering;
   ClearRenderPromise].

Definition asked (v : View) (r : Renderer) : list Event :=
  [SetRenderPromise; AsksAllowsImmediateRender (snapshot v) (renderMethod r)].

(** No event of a later phase stands before an event of an earlier one. *)
Definition in_phase_order (trace : list Event) : Prop :=
  forall i j ei ej,
    trace !! i = Some ei -> trace !! j = Some ej ->
    phase ei < phase ej -> i < j.

(** The marker is set exactly while the call has not settled. *)
Definition marker_tracks_call (c : Call) : Prop :=
  renderPromise (view c) = negb (is_settled (stage c)).

(** The signal that lets a call past the interception, if one is needed. *)
Definition past_interception (v : View) (r : Renderer) : list Signal :=
  if allowsImmediateRender (delegate v) (snapshot v) (renderMethod r)
  then [] else [Resume].

Definition a_snapshot : Snapshot.Snapshot :=
  {| Snapshot.element := Dom.Elem 0 "body" [] [] |}.
Definition allowing : Delegate :=
  {| allowsImmediateRender := fun _ _ => true |}.
Definition intercepting : Delegate :=
  {| allowsImmediateRender := fun _ _ => false |}.
Definition a_view (d : Delegate) : View :=
  {| delegate := d; element := Dom.Elem 0 "body" [] [];
     snapshot := a_snapshot; renderPromise := false |}.
Definition a_renderer : Renderer :=
  {| shouldRender := true; willRender := false; reloadReason := None;
     isPreview := false; renderMethod := Some "replace" |}.
Definition a_reloading_renderer : Renderer :=
  {| shouldRender := false; willRender := true;
     reloadReason := Some "test-reason";
     isPreview := false; renderMethod := None |}.

End ViewTerms.

(** ** Paths of URLs ([src/core/url.ts]) *)

Module UrlPath.
Import JsString.

(** [s.split(sep)] for a separator of one code unit: the pieces between
    the separators, one more than there are separators. *)
Fixpoint split (sep : ascii) (s : string) : list string :=
  match s with
  | EmptyString => [EmptyString]
  | String c rest =>
      if Ascii.eqb c sep then EmptyString :: split sep rest
      else match split sep rest with
           | piece :: pieces => String c piece :: pieces
           | [] => [String c EmptyString]
           end
  end.

(** [array.slice(b)]: a negative index counts from the end, and the start
    is clamped to [0 .. array.length]. *)
Definition array_slice {A : Type} (l : list A) (b : Z) : list A :=
  let n := Z.of_nat (length l) in
  let from := if (b <? 0)%Z then Z.max (n + b) 0 else Z.min b n in
  drop (Z.to_nat from) l.

(** [s.endsWith(t)] and [s.startsWith(t)]. *)
Definition endsWith (s t : string) : bool :=
  let n := String.length s in
  let m := String.length t in
  Nat.leb m n && String.eqb (String.substring (n - m) m s) t.

Definition startsWith (s t : string) : bool := String.prefix t s.

Fixpoint no_dot (s : string) : bool :=
  match s with
  | EmptyString => true
  | String c rest => negb (Ascii.eqb c ".") && no_dot rest
  end.

(** [s.match] with the pattern: a dot, any run of characters other than a
    dot, end of input.  The match starts at the leftmost dot that no other
    dot follows; the result is the whole match. *)
Fixpoint match_extension (s : string) : option string :=
  match s with
  | EmptyString => None
  | String c rest =>
      if Ascii.eqb c "." && no_dot rest then Some s
      else match_extension rest
  end.

(** A [URL] object, as far as the path helpers read it. *)
Record URL := { origin : string; pathname : string }.

(** What a helper that may dereference [undefined] comes to. *)
Inductive Returned (A : Type) :=
| Returns (a : A)
| ThrowsTypeError.
Arguments Returns {A} a.
Arguments ThrowsTypeError {A}.

(** [getPathComponents]: [url.pathname.split("/").slice(1)]. *)
Definition getPathComponents (url : URL) : list string :=
  array_slice (split "/" (pathname url)) 1.

(** [getLastPathComponent]: [getPathComponents(url).slice(-1)[0]], which is
    [undefined] when there is no component. *)
Definition getLastPathComponent (url : URL) : option string :=
  head (array_slice (getPathComponents url) (-1)).

(** [getExtension]: the match of the last component, or the empty string
    without a match; calling [match] on [undefined] throws. *)
Definition getExtension (url : URL) : Returned string :=
  match getLastPathComponent url with
  | None => ThrowsTypeError
  | Some last =>
      Returns match match_extension last with
              | Some m => m
              | None => EmptyString
              end
  end.

(** [addTrailingSlash] *)
Definition addTrailingSlash (value : string) : string :=
  if endsWith value "/" then value else value +:+ "/".

(** [isPrefixedBy] *)
Definition isPrefixedBy (baseURL url : URL) : bool :=
  if negb (String.eqb (origin baseURL) (origin url)) then false
  else
    let basePath := addTrailingSlash (pathname baseURL) in
    let urlPath := addTrailingSlash (pathname url) in
    startsWith urlPath basePath.

(** [locationIsVisitable]; [unvisitableExtensions] stands for
    [config.drive.unvisitableExtensions], a set of the absent
    [src/core/config.ts].  The extension is computed whether or not the
    location is within the root. *)
Definition locationIsVisitable (unvisitableExtensions : gset string)
    (location rootLocation : URL) : Returned bool :=
  let isWithinRoot := isPrefixedBy rootLocation location in
  match getExtension location with
  | ThrowsTypeError => ThrowsTypeError
  | Returns extension =>
      let isUnvisitable := bool_decide (extension ∈ unvisitableExtensions) in
      Returns (isWithinRoot && negb isUnvisitable)
  end.

End UrlPath.

(** ** The vocabulary of the further properties *)

Module TextTerms.

(** Whether a code unit occurs in a string, and how often. *)
Fixpoint contains (c : ascii) (s : string) : bool :=
  match s with
  | EmptyString => false
  | String d rest => Ascii.eqb d c || contains c rest
  end.

Fixpoint count (c : ascii) (s : string) : nat :=
  match s with
  | EmptyString => 0
  | String d rest => (if Ascii.eqb d c then 1 else 0) + count c rest
  end.

(** [pieces.join(sep)] for a separator of one code unit. *)
Fixpoint join (sep : ascii) (pieces : list string) : string :=
  match pieces with
  | [] => EmptyString
  | [piece] => piece
  | piece :: rest => piece +:+ String sep (join sep rest)
  end.

End TextTerms.

Module MoreTerms.
Import Dom Snapshot.

(** A URL object for a page address and a fragment. *)
Definition with_fragment (page fragment : string) : Url.URLLike :=
  {| Url.href := page +:+ String "#" fragment;
     Url.hash := Some (String "#" fragment) |}.

(** The number of elements of a subtree. *)
Fixpoint size (e : Element) : nat :=
  match e with
  | Elem _ _ _ cs => S (list_sum (List.map size cs))
  end.

(** The last element of a list, in its order, with a given identifier. *)
Definition last_with_id (l : list Element) (i : string) : option Element :=
  List.find (fun e => String.eqb (Dom.id e) i) (rev l).

(** The selector text that [getPermanentElementById] builds. *)
Definition permanent_selector (i : string) : string :=
  "#" +:+ i +:+ "[data-turbo-permanent]".

(** Sample documents. *)
Definition permanent (uid : nat) (i : string) : Element :=
  Elem uid "div" [("id", i); ("data-turbo-permanent", EmptyString)] [].

Definition current_page : Snapshot :=
  {| element := Elem 0 "body" [] [permanent 1 "nav"; permanent 2 "player"] |}.
Definition incoming_page : Snapshot :=
  {| element := Elem 10 "body" [] [permanent 11 "player"; permanent 12 "cart"] |}.
Definition doubled_page : Snapshot :=
  {| element := Elem 0 "body" [] [permanent 1 "player"; permanent 2 "player"] |}.
Definition numbered_page : Snapshot :=
  {| element := Elem 0 "body" [] [permanent 1 "nav"; permanent 2 "42"] |}.

End MoreTerms.

(** * Properties *)

(** ** JavaScript strings *)

Module JsStringFacts.
Import JsString.

Lemma length_append (s t : string) :
  String.length (s +:+ t) = (String.length s + String.length t)%nat.
Proof. induction s as [|c s IH]; simpl; [reflexivity | now rewrite IH]. Qed.

Lemma substring_prefix (p q : string) :
  String.substring 0 (String.length p) (p +:+ q) = p.
Proof.
  induction p as [|c p IH]; simpl.
  - now destruct q.
  - now rewrite IH.
Qed.

Lemma substring_all (s : string) :
  String.substring 0 (String.length s) s = s.
Proof. induction s as [|c s IH]; simpl; [reflexivity | now rewrite IH]. Qed.

(** Dropping [n + 1] code units from the end of [p ++ "#" ++ a], where [a]
    has [n] code units, leaves [p]. *)
Lemma slice_strip_fragment (p a : string) :
  slice (p +:+ String "#" a) 0 (- (len a + 1)) = p.
Proof.
  unfold slice, clamp_index, len.
  rewrite length_append. simpl String.length.
  replace (0 <? 0)%Z with false by reflexivity.
  destruct (Z.ltb_spec (- (Z.of_nat (String.length a) + 1)) 0) as [_|H]; [|lia].
  match goal with
  | |- String.substring ?n ?m _ = _ =>
      replace n with 0%nat by lia; replace m with (String.length p) by lia
  end.
  apply substring_prefix.
Qed.

Lemma slice_from_1 (c : ascii) (s : string) :
  slice_from (String c s) 1 = s.
Proof.
  unfold slice_from, slice, clamp_index, len. simpl String.length.
  replace (1 <? 0)%Z with false by reflexivity.
  destruct (Z.ltb_spec (Z.of_nat (S (String.length s))) 0) as [H|_]; [lia|].
  match goal with
  | |- String.substring ?n ?m _ = _ =>
      replace n with 1%nat by lia; replace m with (String.length s) by lia
  end.
  simpl. apply substring_all.
Qed.

Lemma match_hash_to_end_Some (s a : string) :
  match_hash_to_end s = Some a -> exists p, s = p +:+ String "#" a.
Proof.
  induction s as [|c s IH]; simpl; [discriminate|].
  destruct (Ascii.eqb c "#" && no_line_terminator s) eqn:E.
  - intros [= <-]. apply andb_true_iff in E as [Ec _].
    apply Ascii.eqb_eq in Ec. subst c. now exists EmptyString.
  - intros H. destruct (IH H) as [p ->]. now exists (String c p).
Qed.

End JsStringFacts.

(** ** URL helpers *)

Module UrlSpec.
Import JsString JsStringFacts Url UrlTerms.

Lemma or_empty (s : string) : (if truthy s then s else EmptyString) = s.
Proof. now destruct s. Qed.

(** When the anchor is read from [href], stripping is exact. *)
Lemma strips_fragment_of_href (url : URLLike) :
  getAnchor url = match_hash_to_end (href url) -> strips_fragment url.
Proof.
  intros Hanchor. unfold strips_fragment, getRequestURL. rewrite Hanchor.
  destruct (match_hash_to_end (href url)) as [a|] eqn:E; [|reflexivity].
  destruct (match_hash_to_end_Some _ _ E) as [p Hp].
  rewrite Hp at 1. rewrite slice_strip_fragment. now rewrite Hp.
Qed.

Example getAnchor_of_URL :
  getAnchor {| href := "https://example.com/path#section1";
               hash := Some "#section1" |} = Some "section1".
Proof. reflexivity. Qed.

Example getAnchor_fallback :
  getAnchor {| href := "https://example.com/path#one#two";
               hash := Some EmptyString |} = Some "one#two".
Proof. reflexivity. Qed.

Example getRequestURL_of_URL :
  getRequestURL {| href := "https://example.com/page.html#section1";
                   hash := Some "#section1" |}
  = "https://example.com/page.html"
  /\ getRequestURL {| href := "https://example.com/page.html";
                      hash := Some EmptyString |}
     = "https://example.com/page.html"
  /\ getRequestURL {| href := "https://example.com/page.html#space%20here";
                      hash := Some "#space%20here" |}
     = "https://example.com/page.html"
  /\ getAnchor {| href := "https://example.com/path"; hash := Some EmptyString |}
     = None
  /\ getAnchor {| href := "https://example.com/path#"; hash := Some EmptyString |}
     = Some EmptyString.
Proof. repeat split. Qed.

Example getRequestURL_bare_hash :
  getRequestURL {| href := "https://example.com/page.html#";
                   hash := Some EmptyString |}
  = "https://example.com/page.html".
Proof. reflexivity. Qed.

(** C10, as stated, fails: a URL-like value whose [hash] is not the tail
    of its [href] loses part of its path, and the stripped text followed
    by [#] and the anchor is not [href]. *)
Lemma getRequestURL_foreign_hash :
  let url := {| href := "https://a.com/page"; hash := Some "#frag" |} in
  getAnchor url = Some "frag"
  /\ getRequestURL url = "https://a.com"
  /\ ~ strips_fragment url.
Proof.
  repeat split. intros H. vm_compute in H. discriminate H.
Qed.

(** C10, amended: for every URL, and every URL-like value whose [hash] is
    absent, empty, or the tail of [href] from the fragment's [#] on,
    [getRequestURL] (and so [toCacheKey]) strips exactly the fragment and
    its [#]: without an anchor it returns [href], and with one the result
    followed by [#] and the anchor is [href], also when [href] ends in a
    bare [#]. *)
Theorem getRequestURL_strips_fragment (url : URLLike) :
  hash_agrees url ->
  strips_fragment url /\ toCacheKey url = getRequestURL url.
Proof.
  intros Hagree. split; [|reflexivity].
  unfold hash_agrees in Hagree.
  destruct (hash url) as [h|] eqn:Hhash.
  - destruct Hagree as [-> | (p & frag & -> & Hhref)].
    + apply strips_fragment_of_href. unfold getAnchor.
      rewrite Hhash. simpl. now rewrite or_empty.
    + assert (Hanchor : getAnchor url = Some frag).
      { unfold getAnchor. rewrite Hhash.
        replace (truthy (String "#" frag)) with true by reflexivity.
        replace (0 <? len (String "#" frag))%Z with true
          by (symmetry; apply Z.ltb_lt; unfold len; simpl String.length; lia).
        simpl andb. cbv iota. now rewrite slice_from_1. }
      unfold strips_fragment, getRequestURL. rewrite Hanchor.
      rewrite Hhref at 1. rewrite slice_strip_fragment. now rewrite Hhref.
  - apply strips_fragment_of_href. unfold getAnchor.
    rewrite Hhash. now rewrite or_empty.
Qed.

Lemma getRequestURL_strips_fragment_witness :
  let url := {| href := "https://example.com/page.html#section1";
                hash := Some "#section1" |} in
  hash_agrees url /\ strips_fragment url /\ toCacheKey url = getRequestURL url.
Proof.
  intros url.
  assert (H : hash_agrees url).
  { right. exists "https://example.com/page.html", "section1".
    split; reflexivity. }
  split; [exact H | exact (getRequestURL_strips_fragment url H)].
Defined.

End UrlSpec.

(** ** Selector text built by the Snapshot *)

Module CssFacts.
Import Dom Css JsString JsStringFacts CssTerms.

Lemma append_cons (c : ascii) (s t : string) :
  String c s +:+ t = String c (s +:+ t).
Proof. reflexivity. Qed.

Lemma append_empty (t : string) : EmptyString +:+ t = t.
Proof. reflexivity. Qed.

Ltac expose_text := repeat rewrite ?append_cons, ?append_empty.

Lemma read_string_plain (a rest : string) :
  plain a = true ->
  read_string "'" (a +:+ String "'" rest) = Some (a, rest).
Proof.
  induction a as [|c a IH]; intros H; [reflexivity|].
  rewrite append_cons. simpl in H |- *.
  apply andb_true_iff in H as [H Ha]. apply andb_true_iff in H as [Hq Hc].
  apply negb_true_iff in Hq. rewrite Hq, Hc. now rewrite (IH Ha).
Qed.

Lemma read_attribute_id (a rest : string) :
  plain a = true ->
  read_attribute ("id='" +:+ a +:+ "']" +:+ rest) = Some (SAttrEquals "id" a, rest).
Proof.
  intros H. expose_text.
  transitivity
    (match read_string "'" (a +:+ String "'" (String "]" rest)) with
     | Some (v, r') =>
         match read_close r' with
         | Some r'' => Some (SAttrEquals "id" v, r'')
         | None => None
         end
     | None => None
     end); [reflexivity|].
  rewrite (read_string_plain _ _ H). reflexivity.
Qed.

Lemma read_attribute_name (a rest : string) :
  plain a = true ->
  read_attribute ("name='" +:+ a +:+ "']" +:+ rest)
  = Some (SAttrEquals "name" a, rest).
Proof.
  intros H. expose_text.
  transitivity
    (match read_string "'" (a +:+ String "'" (String "]" rest)) with
     | Some (v, r') =>
         match read_close r' with
         | Some r'' => Some (SAttrEquals "name" v, r'')
         | None => None
         end
     | None => None
     end); [reflexivity|].
  rewrite (read_string_plain _ _ H). reflexivity.
Qed.

Lemma read_subclasses_step (fuel : nat) (s : string) :
  read_subclasses (S fuel) s
  = match read_subclass s with
    | NoSubclass => Some ([], s)
    | BadSubclass => None
    | ASubclass a r =>
        match read_subclasses fuel r with
        | Some (l, r') => Some (a :: l, r')
        | None => None
        end
    end.
Proof. reflexivity. Qed.

Lemma read_subclass_bracket (r : string) :
  read_subclass (String "[" r)
  = match read_attribute r with
    | Some (a, r') => ASubclass a r'
    | None => BadSubclass
    end.
Proof. reflexivity. Qed.

Lemma read_subclass_hash (r : string) :
  read_subclass (String "#" r) = named SId r.
Proof. reflexivity. Qed.

(** One attribute selector ends a compound selector when what follows
    starts no further [#id], [.class] or attribute selector. *)
Lemma read_subclasses_attribute (fuel : nat) (r r' : string) (a : Simple) :
  read_attribute r = Some (a, r') ->
  read_subclass r' = NoSubclass ->
  read_subclasses (S (S fuel)) (String "[" r) = Some ([a], r').
Proof.
  intros Ha Hend.
  rewrite read_subclasses_step, read_subclass_bracket, Ha.
  now rewrite read_subclasses_step, Hend.
Qed.

Lemma read_list_step (fuel : nat) (s : string) :
  read_list (S fuel) s
  = match read_compound fuel (skip_ws s) with
    | Some (c, r) =>
        match skip_ws r with
        | EmptyString => Some [c]
        | String d r' =>
            if Ascii.eqb d ","
            then match read_list fuel r' with
                 | Some l => Some (c :: l)
                 | None => None
                 end
            else None
        end
    | None => None
    end.
Proof. reflexivity. Qed.

Lemma read_compound_step (fuel : nat) (s : string) :
  read_compound fuel s
  = let (type, r) := read_type s in
    match read_subclasses fuel r with
    | Some (l, r') =>
        match type ++ l with
        | [] => None
        | c => Some (c, r')
        end
    | None => None
    end.
Proof. reflexivity. Qed.

Lemma parse_anchor_selector (a : string) :
  plain a = true ->
  parse ("[id='" +:+ a +:+ "'], a[name='" +:+ a +:+ "']")
  = Some [[SAttrEquals "id" a]; [SType "a"; SAttrEquals "name" a]].
Proof.
  intros H. unfold parse.
  set (second := "name='" +:+ a +:+ "']" +:+ EmptyString).
  set (first := "id='" +:+ a +:+ "']" +:+ ", a[" +:+ second).
  assert (Htext : "[id='" +:+ a +:+ "'], a[name='" +:+ a +:+ "']"
                  = String "[" first).
  { subst first second. now expose_text. }
  rewrite Htext.
  assert (Hfuel : exists fuel,
             String.length (String "[" first) = S (S fuel)).
  { subst first. expose_text. cbn [String.length]. eexists. reflexivity. }
  destruct Hfuel as [fuel ->].
  assert (H1 : forall f, read_compound (S (S f)) (String "[" first)
               = Some ([SAttrEquals "id" a], ", a[" +:+ second)).
  { intros f. rewrite read_compound_step.
    change (read_type (String "[" first)) with (@nil Simple, String "[" first).
    cbv iota beta.
    subst first.
    rewrite (read_subclasses_attribute _ _ (", a[" +:+ second) _
               (read_attribute_id a _ H) eq_refl).
    reflexivity. }
  assert (H2 : forall f, read_compound (S (S f)) (String "a" (String "[" second))
               = Some ([SType "a"; SAttrEquals "name" a], EmptyString)).
  { intros f. rewrite read_compound_step.
    change (read_type (String "a" (String "[" second)))
      with ([SType "a"], String "[" second).
    cbv iota beta.
    subst second.
    rewrite (read_subclasses_attribute _ _ EmptyString _
               (read_attribute_name a _ H) eq_refl).
    reflexivity. }
  rewrite read_list_step.
  change (skip_ws (String "[" first)) with (String "[" first).
  rewrite H1.
  change (skip_ws (", a[" +:+ second)) with (", a[" +:+ second).
  expose_text.
  change (Ascii.eqb "," ",") with true. cbv iota.
  rewrite read_list_step.
  change (skip_ws (String " " (String "a" (String "[" second))))
    with (String "a" (String "[" second)).
  rewrite H2. reflexivity.
Qed.

Lemma read_name_identifier (i rest : string) :
  all_name_chars i = true ->
  read_name (i +:+ String "[" rest) = (i, String "[" rest).
Proof.
  induction i as [|c i IH]; intros H; [reflexivity|].
  rewrite append_cons. simpl in H |- *.
  apply andb_true_iff in H as [Hc Hi]. rewrite Hc. now rewrite (IH Hi).
Qed.

Lemma starts_ident_append (i rest : string) :
  starts_ident i = true -> starts_ident (i +:+ rest) = true.
Proof.
  destruct i as [|c [|d i]]; simpl; try discriminate.
  - destruct (is_name_start c); [reflexivity|].
    destruct (Nat.eqb (code c) 45); discriminate.
  - expose_text. simpl. auto.
Qed.

Lemma read_ident_identifier (i rest : string) :
  is_identifier i = true ->
  read_ident (i +:+ String "[" rest) = Some (i, String "[" rest).
Proof.
  intros H. apply andb_true_iff in H as [Hs Hn]. unfold read_ident.
  now rewrite (starts_ident_append _ _ Hs), (read_name_identifier _ _ Hn).
Qed.

(** The selector of [getPermanentElementById] around an identifier. *)
Lemma parse_permanent_selector (i : string) :
  is_identifier i = true ->
  parse ("#" +:+ i +:+ "[data-turbo-permanent]")
  = Some [[SId i; SAttrPresent "data-turbo-permanent"]].
Proof.
  intros H. unfold parse.
  assert (Htext : "#" +:+ i +:+ "[data-turbo-permanent]"
                  = String "#" (i +:+ String "[" "data-turbo-permanent]")).
  { now expose_text. }
  rewrite Htext. set (marker := "data-turbo-permanent]").
  assert (Hfuel : exists fuel,
             String.length (String "#" (i +:+ String "[" marker))
             = S (S fuel)).
  { cbn [String.length]. rewrite length_append, Nat.add_comm.
    subst marker. cbn [String.length Nat.add]. eexists. reflexivity. }
  destruct Hfuel as [fuel ->].
  rewrite read_list_step.
  change (skip_ws (String "#" (i +:+ String "[" marker)))
    with (String "#" (i +:+ String "[" marker)).
  rewrite read_compound_step.
  change (read_type (String "#" (i +:+ String "[" marker)))
    with (@nil Simple, String "#" (i +:+ String "[" marker)).
  cbv iota beta.
  rewrite read_subclasses_step, read_subclass_hash.
  unfold named. rewrite (read_ident_identifier _ _ H).
  reflexivity.
Qed.

Lemma parse_permanent_all :
  parse "[id][data-turbo-permanent]"
  = Some [[SAttrPresent "id"; SAttrPresent "data-turbo-permanent"]].
Proof. reflexivity. Qed.

(** *** The fuel of the readers *)

Abbreviation slen := String.length.

Lemma skip_ws_length (s : string) : slen (skip_ws s) <= slen s.
Proof.
  induction s as [|c s IH]; simpl; [lia|].
  destruct (is_whitespace c); simpl; lia.
Qed.

Lemma read_name_length (s : string) :
  forall n r, read_name s = (n, r) -> slen n + slen r = slen s.
Proof.
  induction s as [|c s IH]; simpl; intros n r H.
  - inversion H. reflexivity.
  - destruct (is_name_char c).
    + destruct (read_name s) as [n' r'] eqn:E. inversion H; subst.
      simpl. rewrite (IH n' r eq_refl). reflexivity.
    + inversion H. reflexivity.
Qed.

Lemma starts_ident_name_char (c : ascii) (s : string) :
  starts_ident (String c s) = true -> is_name_char c = true.
Proof.
  unfold starts_ident, is_name_char.
  destruct (is_name_start c); [reflexivity|].
  destruct (Nat.eqb (code c) 45); [intros _|discriminate].
  now rewrite orb_true_r.
Qed.

Lemma read_ident_length (s n r : string) :
  read_ident s = Some (n, r) -> slen r < slen s.
Proof.
  unfold read_ident. destruct (starts_ident s) eqn:E; [|discriminate].
  destruct s as [|c s]; [discriminate|].
  intros [= H]. pose proof (read_name_length (String c s) _ _ H) as Hlen.
  simpl in H. rewrite (starts_ident_name_char _ _ E) in H.
  destruct (read_name s) as [n' r']. inversion H; subst.
  simpl in Hlen. simpl. lia.
Qed.

Lemma read_string_length (q : ascii) (s : string) :
  forall v r, read_string q s = Some (v, r) -> slen r <= slen s.
Proof.
  induction s as [|c s IH]; simpl; intros v r H.
  - inversion H. simpl. lia.
  - destruct (Ascii.eqb c q).
    + inversion H; subst. lia.
    + destruct (is_string_char c); [|discriminate].
      destruct (read_string q s) as [[v' r']|]; [|discriminate].
      inversion H; subst. pose proof (IH _ _ eq_refl). lia.
Qed.

Lemma read_close_length (s r : string) :
  read_close s = Some r -> slen r <= slen s.
Proof.
  unfold read_close. pose proof (skip_ws_length s) as Hs.
  destruct (skip_ws s) as [|c t].
  - intros [= <-]. simpl. lia.
  - destruct (Ascii.eqb c "]"); [|discriminate].
    intros [= <-]. simpl in Hs. lia.
Qed.

Lemma read_value_length (name s : string) (a : Simple) (r : string) :
  read_value name s = Some (a, r) -> slen r < slen s.
Proof.
  unfold read_value. destruct s as [|q t]; [discriminate|].
  destruct (Ascii.eqb q "'" || Nat.eqb (code q) 34)%bool.
  - destruct (read_string q t) as [[v r']|] eqn:E; [|discriminate].
    destruct (read_close r') as [r''|] eqn:Ec; [|discriminate].
    intros [= _ <-]. apply read_string_length in E.
    apply read_close_length in Ec. simpl. lia.
  - destruct (read_ident (String q t)) as [[v r']|] eqn:E; [|discriminate].
    destruct (read_close r') as [r''|] eqn:Ec; [|discriminate].
    intros [= _ <-]. apply read_ident_length in E.
    apply read_close_length in Ec. lia.
Qed.

Lemma read_attribute_length (s : string) (a : Simple) (r : string) :
  read_attribute s = Some (a, r) -> slen r < slen s.
Proof.
  unfold read_attribute. pose proof (skip_ws_length s) as Hs.
  destruct (read_ident (skip_ws s)) as [[name t]|] eqn:E; [|discriminate].
  apply read_ident_length in E. pose proof (skip_ws_length t) as Ht.
  destruct (skip_ws t) as [|c t1] eqn:Et.
  - intros [= _ <-]. simpl. lia.
  - destruct (Ascii.eqb c "=").
    + intros H. apply read_value_length in H.
      pose proof (skip_ws_length t1). simpl in Ht. lia.
    + destruct (Ascii.eqb c "]"); [|discriminate].
      intros [= _ <-]. simpl in Ht. lia.
Qed.

Lemma read_subclass_length (s : string) (a : Simple) (r : string) :
  read_subclass s = ASubclass a r -> slen r < slen s.
Proof.
  unfold read_subclass, named. destruct s as [|c t]; [discriminate|].
  destruct (Ascii.eqb c "#").
  { destruct (read_ident t) as [[n r']|] eqn:E; [|discriminate].
    intros [= _ <-]. apply read_ident_length in E. simpl. lia. }
  destruct (Ascii.eqb c ".").
  { destruct (read_ident t) as [[n r']|] eqn:E; [|discriminate].
    intros [= _ <-]. apply read_ident_length in E. simpl. lia. }
  destruct (Ascii.eqb c "["); [|discriminate].
  destruct (read_attribute t) as [[a' r']|] eqn:E; [|discriminate].
  intros [= _ <-]. apply read_attribute_length in E. simpl. lia.
Qed.

Lemma read_subclasses_length (fuel : nat) :
  forall s l r,
  read_subclasses fuel s = Some (l, r) ->
  slen r <= slen s /\ (l <> [] -> slen r < slen s).
Proof.
  induction fuel as [|fuel IH]; intros s l r; simpl; [discriminate|].
  destruct (read_subclass s) as [| |a t] eqn:E.
  - intros [= <- <-]. split; [lia | congruence].
  - discriminate.
  - apply read_subclass_length in E.
    destruct (read_subclasses fuel t) as [[l' r']|] eqn:Et; [|discriminate].
    intros [= <- <-]. destruct (IH _ _ _ Et) as [Hle _]. split; intros; lia.
Qed.

Lemma read_subclasses_fuel (fuel : nat) :
  forall fuel' s,
  slen s < fuel -> slen s < fuel' ->
  read_subclasses fuel s = read_subclasses fuel' s.
Proof.
  induction fuel as [|fuel IH]; intros fuel' s Hf Hf'; [lia|].
  destruct fuel' as [|fuel']; [lia|]. simpl.
  destruct (read_subclass s) as [| |a t] eqn:E; try reflexivity.
  apply read_subclass_length in E.
  rewrite (IH fuel' t) by lia. reflexivity.
Qed.

Lemma read_type_length (s : string) :
  slen (snd (read_type s)) <= slen s
  /\ (fst (read_type s) <> [] -> slen (snd (read_type s)) < slen s).
Proof.
  unfold read_type. destruct s as [|c t]; simpl; [split; [lia|congruence]|].
  destruct (Ascii.eqb c "*"); simpl; [split; intros; lia|].
  destruct (read_ident (String c t)) as [[n r]|] eqn:E; simpl.
  - apply read_ident_length in E. simpl in E. split; intros; lia.
  - split; [lia | congruence].
Qed.

Lemma read_compound_length (fuel : nat) (s : string) (c : Compound) (r : string) :
  read_compound fuel s = Some (c, r) -> slen r < slen s.
Proof.
  unfold read_compound. pose proof (read_type_length s) as [Hle Hlt].
  destruct (read_type s) as [type t]. simpl in Hle, Hlt.
  destruct (read_subclasses fuel t) as [[l r']|] eqn:E; [|discriminate].
  destruct (read_subclasses_length _ _ _ _ E) as [Hle' Hlt'].
  destruct type as [|x type]; simpl.
  - destruct l as [|y l]; [discriminate|].
    intros [= _ <-]. assert (slen r' < slen t) by (apply Hlt'; congruence). lia.
  - intros [= _ <-]. assert (slen t < slen s) by (apply Hlt; congruence). lia.
Qed.

Lemma read_compound_fuel (fuel fuel' : nat) (s : string) :
  slen s < fuel -> slen s < fuel' ->
  read_compound fuel s = read_compound fuel' s.
Proof.
  intros Hf Hf'. unfold read_compound.
  pose proof (read_type_length s) as [Hle _].
  destruct (read_type s) as [type t]. simpl in Hle.
  rewrite (read_subclasses_fuel fuel fuel' t) by lia. reflexivity.
Qed.

Lemma read_list_fuel (fuel : nat) :
  forall fuel' s,
  S (slen s) < fuel -> S (slen s) < fuel' ->
  read_list fuel s = read_list fuel' s.
Proof.
  induction fuel as [|fuel IH]; intros fuel' s Hf Hf'; [lia|].
  destruct fuel' as [|fuel']; [lia|]. simpl.
  pose proof (skip_ws_length s) as Hs.
  rewrite (read_compound_fuel fuel fuel' (skip_ws s)) by lia.
  destruct (read_compound fuel' (skip_ws s)) as [[c r]|] eqn:E; [|reflexivity].
  apply read_compound_length in E.
  pose proof (skip_ws_length r) as Hr.
  destruct (skip_ws r) as [|d r']; [reflexivity|].
  destruct (Ascii.eqb d ","); [|reflexivity].
  simpl in Hr. rewrite (IH fuel' r') by lia. reflexivity.
Qed.

(** More fuel than [parse] takes never changes the result. *)
Lemma parse_fuel (fuel : nat) (s : string) :
  S (slen s) < fuel -> read_list fuel s = parse s.
Proof. intros H. apply read_list_fuel; [exact H | lia]. Qed.

End CssFacts.

(** ** Searching and filtering lists *)

Module ListFacts.

Lemma find_ext {A : Type} (f g : A -> bool) (l : list A) :
  (forall x, f x = g x) -> List.find f l = List.find g l.
Proof.
  intros H. induction l as [|x l IH]; simpl; [reflexivity|].
  now rewrite H, IH.
Qed.

Lemma find_orb_l {A : Type} (f g : A -> bool) (l : list A) :
  List.find g l = None ->
  List.find (fun x => f x || g x) l = List.find f l.
Proof.
  induction l as [|x l IH]; simpl; [reflexivity|].
  destruct (g x) eqn:Hg; [discriminate|].
  intros H. rewrite orb_false_r. now rewrite (IH H).
Qed.

Lemma find_orb_r {A : Type} (f g : A -> bool) (l : list A) :
  List.find f l = None ->
  List.find (fun x => f x || g x) l = List.find g l.
Proof.
  induction l as [|x l IH]; simpl; [reflexivity|].
  destruct (f x) eqn:Hf; [discriminate|].
  intros H. simpl. now rewrite (IH H).
Qed.

Lemma filter_ext {A : Type} (f g : A -> bool) (l : list A) :
  (forall x, f x = g x) -> List.filter f l = List.filter g l.
Proof.
  intros H. induction l as [|x l IH]; simpl; [reflexivity|].
  now rewrite H, IH.
Qed.

Lemma find_filter {A : Type} (f g : A -> bool) (l : list A) :
  List.find f (List.filter g l) = List.find (fun x => g x && f x) l.
Proof.
  induction l as [|x l IH]; simpl; [reflexivity|].
  destruct (g x); simpl; [now rewrite IH | exact IH].
Qed.

End ListFacts.

(** ** Snapshot: anchors *)

Module AnchorSpec.
Import Dom Css JsString CssTerms CssFacts ListFacts Snapshot AnchorTerms.

Lemma matches_anchor_selector (a : string) (e : Element) :
  matches [[SAttrEquals "id" a]; [SType "a"; SAttrEquals "name" a]] e
  = either_match a e.
Proof.
  unfold matches, matches_compound, either_match, has_id, is_named_anchor.
  simpl. now rewrite !andb_true_r, orb_false_r.
Qed.

Lemma truthy_nonempty (a : string) : a <> EmptyString -> truthy a = true.
Proof. destruct a; [congruence | reflexivity]. Qed.

(** For a plain anchor the query runs, and returns the first descendant
    that matches either way. *)
Lemma getElementForAnchor_plain (this : Snapshot) (anchor : string) :
  anchor <> EmptyString -> plain anchor = true ->
  getElementForAnchor this (Some anchor)
  = Normal (List.find (either_match anchor) (descendants (element this))).
Proof.
  intros Hne Hplain. unfold getElementForAnchor.
  rewrite (truthy_nonempty _ Hne). simpl negb. cbv iota.
  cbn [querySelector selectors]. unfold select.
  rewrite (parse_anchor_selector _ Hplain). f_equal.
  apply find_ext. intros e. apply matches_anchor_selector.
Qed.

(** *** The cases of the repository's tests *)

Example anchor_by_name :
  let anchor := Elem 1 "a" [("name", "my-anchor")] [] in
  let snapshot := {| element := Elem 0 "div" [] [anchor] |} in
  getElementForAnchor snapshot (Some "my-anchor") = Normal (Some anchor)
  /\ hasAnchor snapshot (Some "my-anchor") = Normal true
  /\ getElementForAnchor snapshot None = Normal None
  /\ hasAnchor snapshot None = Normal false.
Proof. repeat split. Qed.

Example anchor_by_id :
  let el := Elem 1 "div" [("id", "anchor-id")] [] in
  let snapshot := {| element := Elem 0 "div" [] [el] |} in
  getElementForAnchor snapshot (Some "anchor-id") = Normal (Some el)
  /\ hasAnchor snapshot (Some "missing") = Normal false.
Proof. repeat split. Qed.

(** *** C7 *)

(** C7: for a null, undefined or empty anchor, [hasAnchor] returns
    [false] and [getElementForAnchor] returns [null], whatever the subtree
    of the Snapshot is and whatever the queries of the platform would
    answer or throw: the subtree is not consulted. *)
Theorem missing_anchor_is_absent `{ParentNode} (this : Snapshot) :
  hasAnchor this None = Normal false
  /\ getElementForAnchor this None = Normal None
  /\ hasAnchor this (Some EmptyString) = Normal false
  /\ getElementForAnchor this (Some EmptyString) = Normal None.
Proof. repeat split. Qed.

(** *** C6 *)

(** C6 at an anchor with a quote character: the selector built around
    [a'b] is not a selector, so both calls throw, whatever the subtree. *)
Theorem quoted_anchor_throws (this : Snapshot) :
  getElementForAnchor this (Some "a'b") = Throw SyntaxError
  /\ hasAnchor this (Some "a'b") = Throw SyntaxError
  /\ getElementForAnchor this (Some "'") = Throw SyntaxError
  /\ hasAnchor this (Some "'") = Throw SyntaxError.
Proof. repeat split. Qed.

(** An anchor with quotes that happens to leave the selector well formed
    is read as selector text: here the anchor asks for a second
    identifier. *)
Example quoted_anchor_is_selector_text :
  getElementForAnchor page (Some "x'],[id='top") = Normal (Some heading).
Proof. reflexivity. Qed.

(** For plain anchors both calls return normally. *)
Lemma plain_anchor_returns (this : Snapshot) (anchor : string) :
  anchor <> EmptyString -> plain anchor = true ->
  exists found,
    getElementForAnchor this (Some anchor) = Normal found
    /\ hasAnchor this (Some anchor)
       = Normal (match found with Some _ => true | None => false end).
Proof.
  intros Hne Hplain. eexists. split.
  - apply (getElementForAnchor_plain this anchor Hne Hplain).
  - unfold hasAnchor. destruct (String.eqb_spec anchor EmptyString) as [E|_];
      [contradiction|].
    now rewrite (getElementForAnchor_plain this anchor Hne Hplain).
Qed.

(** *** C5 *)

(** C5, as stated, fails: with a named anchor before the element whose
    identifier is the anchor, the named anchor is returned, not the
    identifier match. *)
Lemma named_anchor_before_identifier :
  List.find (has_id "top") (descendants (element page)) = Some heading
  /\ identifier_first page "top" = Some heading
  /\ getElementForAnchor page (Some "top") = Normal (Some named_link)
  /\ getElementForAnchor page (Some "top")
     <> Normal (identifier_first page "top").
Proof. repeat split. intros H. vm_compute in H. discriminate H. Qed.

(** C5, amended: for an anchor without single quote, backslash, line
    break or NUL, [getElementForAnchor] returns the first descendant in
    document order that has the anchor as identifier or is named as an
    anchor with that value; so it is the identifier match when no
    descendant is named so, and the name match when no descendant has the
    identifier. *)
Theorem getElementForAnchor_document_order (this : Snapshot) (anchor : string) :
  anchor <> EmptyString -> plain anchor = true ->
  let all := descendants (element this) in
  getElementForAnchor this (Some anchor)
  = Normal (List.find (either_match anchor) all)
  /\ (List.find (is_named_anchor anchor) all = None ->
      getElementForAnchor this (Some anchor)
      = Normal (List.find (has_id anchor) all))
  /\ (List.find (has_id anchor) all = None ->
      getElementForAnchor this (Some anchor)
      = Normal (List.find (is_named_anchor anchor) all)).
Proof.
  intros Hne Hplain all.
  pose proof (getElementForAnchor_plain this anchor Hne Hplain) as H.
  fold all in H. repeat split.
  - exact H.
  - intros Hnone. rewrite H. f_equal. now apply find_orb_l.
  - intros Hnone. rewrite H. f_equal. now apply find_orb_r.
Qed.

Lemma getElementForAnchor_document_order_witness :
  "top" <> EmptyString /\ plain "top" = true
  /\ getElementForAnchor page (Some "top") = Normal (Some named_link).
Proof.
  assert (Hne : "top" <> EmptyString) by discriminate.
  assert (Hplain : plain "top" = true) by reflexivity.
  split; [exact Hne | split; [exact Hplain |]].
  destruct (getElementForAnchor_document_order page "top" Hne Hplain)
    as [H _].
  exact H.
Defined.

End AnchorSpec.

(** ** Snapshot: permanent elements *)

Module PermanentSpec.
Import Dom Css JsString CssTerms CssFacts ListFacts Snapshot PermanentTerms.

Lemma matches_permanent_all (e : Element) :
  matches [[SAttrPresent "id"; SAttrPresent "data-turbo-permanent"]] e
  = is_permanent e.
Proof.
  unfold matches, matches_compound, is_permanent. simpl.
  now rewrite andb_true_r, orb_false_r.
Qed.

Lemma matches_permanent_id (i : string) (e : Element) :
  matches [[SId i; SAttrPresent "data-turbo-permanent"]] e
  = is_permanent e && String.eqb (Dom.id e) i.
Proof.
  unfold matches, matches_compound, is_permanent, Dom.id, hasAttribute.
  simpl. rewrite andb_true_r, orb_false_r.
  destruct (getAttribute e "id") as [v|]; simpl; [|reflexivity].
  apply andb_comm.
Qed.

Lemma permanentElements_spec (s : Snapshot) :
  permanentElements s = Normal (permanent_in s).
Proof.
  unfold permanentElements, queryPermanentElementsAll.
  cbn [querySelectorAll selectors]. unfold selectAll.
  rewrite parse_permanent_all. f_equal.
  apply filter_ext, matches_permanent_all.
Qed.

Lemma getPermanentElementById_spec (s : Snapshot) (i : string) :
  is_identifier i = true ->
  getPermanentElementById s i = Normal (permanent_with_id s i).
Proof.
  intros H.
  unfold getPermanentElementById, getPermanentElementByIdIn.
  cbn [querySelector selectors]. unfold select.
  rewrite (parse_permanent_selector _ H). f_equal.
  apply find_ext. intros e. apply matches_permanent_id.
Qed.

Section Collect.
Variable other : Snapshot.

Lemma collect_fold (els : list Element) :
  forall m,
  (forall e, In e els -> is_identifier (Dom.id e) = true) ->
  collectPermanentElements other els m
  = Normal (List.fold_left (record_match other) els m).
Proof.
  induction els as [|e els IH]; intros m Hid; [reflexivity|].
  cbn [collectPermanentElements].
  rewrite (getPermanentElementById_spec other _ (Hid e (or_introl eq_refl))).
  cbn [mbind Completion_bind cbind fold_left]. apply IH. intros x Hx. apply Hid. now right.
Qed.

Lemma assign_lookup_eq (m : gmap string (Element * Element))
    (k : string) (v : Element * Element) :
  k <> "__proto__" -> assign m k v !! k = Some v.
Proof.
  intros Hk. unfold assign.
  destruct (String.eqb_spec k "__proto__") as [E|_]; [contradiction|].
  apply lookup_insert_eq.
Qed.

Lemma assign_lookup_ne (m : gmap string (Element * Element))
    (k j : string) (v : Element * Element) :
  k <> j -> assign m k v !! j = m !! j.
Proof.
  intros Hkj. unfold assign.
  destruct (String.eqb k "__proto__"); [reflexivity|].
  now apply lookup_insert_ne.
Qed.

Lemma fold_lookup (els : list Element) :
  forall (m : gmap string (Element * Element)) (i : string),
  NoDup (List.map Dom.id els) ->
  (forall e, In e els -> Dom.id e <> "__proto__") ->
  List.fold_left (record_match other) els m !! i
  = match List.find (fun e => String.eqb (Dom.id e) i) els with
    | Some c =>
        match permanent_with_id other i with
        | Some n => Some (c, n)
        | None => m !! i
        end
    | None => m !! i
    end.
Proof.
  induction els as [|e els IH]; intros m i Hnd Hproto; [reflexivity|].
  simpl in Hnd. apply NoDup_cons in Hnd as [Hfresh Hnd].
  simpl. rewrite (IH _ i Hnd) by (intros x Hx; apply Hproto; now right).
  destruct (String.eqb_spec (Dom.id e) i) as [E|E].
  - assert (Hnone : List.find (fun x => String.eqb (Dom.id x) i) els = None).
    { destruct (List.find _ els) as [x|] eqn:Hf; [|reflexivity].
      apply List.find_some in Hf as [Hin Hx].
      apply String.eqb_eq in Hx. exfalso. apply Hfresh.
      apply list_elem_of_In, in_map_iff. exists x. split; [congruence|exact Hin]. }
    rewrite Hnone. unfold record_match. rewrite E.
    destruct (permanent_with_id other i) as [n|]; [|reflexivity].
    rewrite <- E. apply assign_lookup_eq, Hproto. now left.
  - assert (Hsame : record_match other m e !! i = m !! i).
    { unfold record_match.
      destruct (permanent_with_id other (Dom.id e)); [|reflexivity].
      now apply assign_lookup_ne. }
    rewrite Hsame. reflexivity.
Qed.

End Collect.

(** X15: where every permanent identifier of the current Snapshot is a
    selector identifier other than [__proto__], and no two of them are
    equal, the map holds exactly the identifiers with a permanent element
    on both sides, each with the pair of the two elements. *)
Theorem permanent_map_of_identifiers (this other : Snapshot) :
  (forall e, In e (permanent_in this) ->
     is_identifier (Dom.id e) = true /\ Dom.id e <> "__proto__") ->
  NoDup (List.map Dom.id (permanent_in this)) ->
  exists m,
    getPermanentElementMapForSnapshot this other = Normal m
    /\ forall i c n,
         m !! i = Some (c, n)
         <-> permanent_with_id this i = Some c
             /\ permanent_with_id other i = Some n.
Proof.
  intros Hids Hnd.
  exists (List.fold_left (record_match other) (permanent_in this) ∅). split.
  - unfold getPermanentElementMapForSnapshot.
    rewrite permanentElements_spec. simpl.
    apply collect_fold. intros e He. apply (Hids e He).
  - intros i c n.
    rewrite (fold_lookup other _ ∅ i Hnd)
      by (intros e He; apply (Hids e He)).
    unfold permanent_in. rewrite find_filter. fold (permanent_with_id this i).
    rewrite lookup_empty.
    destruct (permanent_with_id this i) as [c'|];
      destruct (permanent_with_id other i) as [n'|];
      split; try (intros [? ?]); try intros ?; try congruence; try discriminate.
    split; congruence.
Qed.

(** *** The cases of the repository's tests *)

Example permanent_map_p1 :
  let cur := Elem 1 "div" [("id", "p1"); ("data-turbo-permanent", EmptyString)] [] in
  let new := Elem 3 "div" [("id", "p1"); ("data-turbo-permanent", EmptyString)] [] in
  let currentSnapshot := {| element := Elem 0 "div" [] [cur] |} in
  let newSnapshot := {| element := Elem 2 "div" [] [new] |} in
  getPermanentElementByIdIn (element currentSnapshot) "p1" = Normal (Some cur)
  /\ queryPermanentElementsAll (element currentSnapshot) = Normal [cur]
  /\ getPermanentElementMapForSnapshot currentSnapshot newSnapshot
     = Normal {[ "p1" := (cur, new) ]}.
Proof. repeat split. Qed.

Example not_permanent_without_marker :
  queryPermanentElementsAll (Elem 0 "div" [] [Elem 1 "div" [("id", "p2")] []])
  = Normal [].
Proof. reflexivity. Qed.

(** An identifier present on one side only produces no entry. *)
Example permanent_on_one_side :
  let cur := Elem 1 "div" [("id", "p1"); ("data-turbo-permanent", EmptyString)] [] in
  let only := Elem 2 "div" [("id", "p3"); ("data-turbo-permanent", EmptyString)] [] in
  let new := Elem 4 "div" [("id", "p1"); ("data-turbo-permanent", EmptyString)] [] in
  let plain := Elem 5 "div" [("id", "p3")] [] in
  getPermanentElementMapForSnapshot
    {| element := Elem 0 "div" [] [cur; only] |}
    {| element := Elem 3 "div" [] [plain; new] |}
  = Normal {[ "p1" := (cur, new) ]}.
Proof. reflexivity. Qed.

(** *** C8 *)

(** C8 at identifiers that are not selector identifiers: both Snapshots
    hold one permanent element with the identifier [a.b], yet the map is
    empty; with the identifier [1] the call throws. *)
Theorem permanent_map_misses_identifier :
  permanent_with_id current_dotted "a.b" = Some (dotted 1)
  /\ permanent_with_id incoming_dotted "a.b" = Some (dotted 3)
  /\ getPermanentElementById incoming_dotted "a.b" = Normal None
  /\ getPermanentElementMapForSnapshot current_dotted incoming_dotted
     = Normal ∅
  /\ permanent_with_id current_numbered "1" = Some (numbered 1)
  /\ permanent_with_id incoming_numbered "1" = Some (numbered 3)
  /\ getPermanentElementMapForSnapshot current_numbered incoming_numbered
     = Throw SyntaxError.
Proof. repeat split. Qed.

End PermanentSpec.

(** ** Snapshot: the [children] accessor *)

Module ChildrenSpec.
Import LiveDom.

(** No later operation touches an array that exists already: mutations
    change child lists only, and a further call of the getter creates an
    array of its own. *)
Lemma perform_keeps_array (st : Store) (op : Later) (a : nat) (items : list nat) :
  array_items st a = Some items -> array_items (perform st op) a = Some items.
Proof.
  unfold array_items. intros Ha. destruct op as [[parent child|parent child]|e];
    simpl; try exact Ha.
  rewrite lookup_insert_ne; [exact Ha|].
  intros Heq. apply (is_fresh (dom (arrays st))).
  rewrite Heq. apply elem_of_dom. eauto.
Qed.

Lemma perform_all_keeps_array (ops : list Later) :
  forall st a items,
  array_items st a = Some items ->
  array_items (perform_all st ops) a = Some items.
Proof.
  induction ops as [|op ops IH]; intros st a items Ha; [exact Ha|].
  unfold perform_all in *. simpl. apply IH. now apply perform_keeps_array.
Qed.

(** The live collection, by contrast, follows the subtree. *)
Example live_collection_changes :
  let st := {| childLists := {[ 0 := [1] ]}; arrays := ∅ |} in
  let live := element_children 0 in
  collection_items st live = [1]
  /\ collection_items (mutate st (AppendChild 0 2)) live = [1; 2]
  /\ collection_items (mutate st (RemoveChild 0 1)) live = [].
Proof. repeat split. Qed.

Example children_then_append :
  let st := {| childLists := {[ 0 := [1] ]}; arrays := ∅ |} in
  let (a, st1) := children 0 st in
  let st2 := perform_all st1 [Mutates (AppendChild 0 2); ReadsChildren 0] in
  array_items st2 a = Some [1]
  /\ collection_items st2 (element_children 0) = [1; 2].
Proof. split; reflexivity. Qed.

(** C9: the array returned by [children] holds the children the element
    has at the moment of the call; whatever children are appended to or
    removed from the live subtree afterwards, and whatever further calls of
    the getter are made, its length and contents stay as they were. *)
Theorem children_array_is_fixed
    (st : Store) (element : nat) (later : list Later) :
  let captured := collection_items st (element_children element) in
  let (a, st1) := children element st in
  array_items st1 a = Some captured
  /\ array_items (perform_all st1 later) a = Some captured
  /\ length <$> array_items (perform_all st1 later) a = Some (length captured).
Proof.
  intros captured. destruct (children element st) as [a st1] eqn:E.
  assert (Ha : array_items st1 a = Some captured).
  { unfold children, Array_from in E. injection E as <- <-.
    unfold array_items. simpl. apply lookup_insert_eq. }
  pose proof (perform_all_keeps_array later st1 a captured Ha) as Hlater.
  split; [exact Ha | split; [exact Hlater |]].
  now rewrite Hlater.
Qed.

End ChildrenSpec.

(** ** View: the render pipeline *)

Module ViewSpec.
Import View ViewTerms.

Lemma in_phase_order_sorted (trace : list Event) :
  StronglySorted (fun a b => phase a <= phase b) trace ->
  in_phase_order trace.
Proof.
  intros Hs. induction Hs as [|e l Hs IH Hall]; intros i j ei ej Hi Hj Hlt.
  - rewrite lookup_nil in Hi. discriminate.
  - destruct i as [|i], j as [|j]; simpl in Hi, Hj.
    + inversion Hi; inversion Hj; subst. lia.
    + lia.
    + inversion Hj; subst ej. exfalso.
      apply list_elem_of_lookup_2, list_elem_of_In in Hi.
      rewrite Forall_forall in Hall.
      pose proof (Hall _ (proj2 (list_elem_of_In _ _) Hi)). lia.
    + pose proof (IH i j ei ej Hi Hj Hlt). lia.
Qed.

Lemma run_app (fof : bool) (s1 s2 : list Signal) :
  forall c done,
  run fof c done (s1 ++ s2)
  = let (c', done') := run fof c done s1 in run fof c' done' s2.
Proof.
  induction s1 as [|s s1 IH]; intros c done; [reflexivity|].
  simpl. destruct (step fof c s) as [c' evs]. apply IH.
Qed.

(** A settled call stays as it is: no signal has any effect on it. *)
Lemma run_settled (fof : bool) (signals : list Signal) :
  forall c done,
  is_settled (stage c) = true -> run fof c done signals = (c, done).
Proof.
  induction signals as [|s signals IH]; intros c done Hc; [reflexivity|].
  simpl. unfold step. destruct (stage c) eqn:E; try discriminate.
  rewrite app_nil_r. apply IH. now rewrite E.
Qed.

(** A suspended call stays suspended, and does nothing, until resumed. *)
Lemma run_suspended (fof : bool) (signals : list Signal) :
  forall c done,
  stage c = Suspended -> Forall (fun s => s <> Resume) signals ->
  run fof c done signals = (c, done).
Proof.
  induction signals as [|s signals IH]; intros c done Hc Hs; [reflexivity|].
  apply Forall_cons in Hs as [Hs Hrest].
  simpl. unfold step. rewrite Hc.
  destruct s; try contradiction; rewrite app_nil_r; now apply IH.
Qed.

Lemma step_marker (fof : bool) (c : Call) (s : Signal) :
  marker_tracks_call c -> marker_tracks_call (fst (step fof c s)).
Proof.
  unfold marker_tracks_call, step. intros H.
  destruct (stage c) eqn:E; destruct s as [|[]|[]]; simpl;
    rewrite ?E; simpl in *; auto.
Qed.

Lemma run_marker (fof : bool) (signals : list Signal) :
  forall c done,
  marker_tracks_call c -> marker_tracks_call (fst (run fof c done signals)).
Proof.
  induction signals as [|s signals IH]; intros c done H; [exact H|].
  simpl. pose proof (step_marker fof c s H) as H'.
  destruct (step fof c s) as [c' evs]. now apply IH.
Qed.

(** *** C1 *)

(** C1: with [shouldRender] and a Delegate that allows an immediate
    render, the call of [render] prepares and waits; [renderer.render] is
    called once the preparation has settled; once the render has settled
    the finalize steps follow in their fixed order, the marker being
    cleared last; and in the whole trace no event of a later phase stands
    before an event of an earlier one. *)
Theorem render_immediate_order
    (finalize_on_failure : bool) (v : View) (r : Renderer) :
  shouldRender r = true ->
  allowsImmediateRender (delegate v) (snapshot v) (renderMethod r) = true ->
  snd (render v r)
  = asked v r ++ [MarkAsPreview (isPreview r); PrepareToRender]
  /\ snd (render_then finalize_on_failure v r [PrepareSettles Fulfilled])
     = asked v r ++ [MarkAsPreview (isPreview r); PrepareToRender; Render]
  /\ let (c, trace) :=
       render_then finalize_on_failure v r
         [PrepareSettles Fulfilled; RenderSettles Fulfilled] in
     trace = asked v r ++ pipeline v r
     /\ stage c = Settled Fulfilled
     /\ renderPromise (view c) = false
     /\ in_phase_order trace.
Proof.
  intros Hshould Hallow. unfold render_then, render.
  rewrite Hshould, Hallow. simpl. repeat split.
  apply in_phase_order_sorted.
  repeat (constructor; [|repeat constructor; simpl; lia]). constructor.
Qed.

Lemma render_immediate_order_witness :
  shouldRender a_renderer = true
  /\ snd (render_then false (a_view allowing) a_renderer
            [PrepareSettles Fulfilled; RenderSettles Fulfilled])
     = asked (a_view allowing) a_renderer
       ++ pipeline (a_view allowing) a_renderer.
Proof.
  split; [reflexivity|].
  pose proof (render_immediate_order false (a_view allowing) a_renderer
                eq_refl eq_refl) as (_ & _ & H).
  destruct (render_then false (a_view allowing) a_renderer
              [PrepareSettles Fulfilled; RenderSettles Fulfilled])
    as [c trace].
  exact (proj1 H).
Defined.

(** *** C2 *)

(** C2: for an idle View and a renderer with [shouldRender], the marker
    is set by the call of [render]; whatever signals arrive, it is set
    exactly as long as the call has not settled; and on each way out, a
    rejected preparation, a rejected render or success, the call settles
    with that outcome, the marker is cleared, and clearing it is the last
    thing the pipeline does. *)
Theorem renderPromise_lifetime
    (finalize_on_failure : bool) (v : View) (r : Renderer)
    (signals : list Signal) :
  shouldRender r = true ->
  renderPromise v = false ->
  let reached := fun ss => render_then finalize_on_failure v r ss in
  let settles_with := fun ss o =>
    stage (fst (reached ss)) = Settled o
    /\ renderPromise (view (fst (reached ss))) = false
    /\ last (snd (reached ss)) = Some ClearRenderPromise in
  renderPromise (view (fst (render v r))) = true
  /\ head (snd (render v r)) = Some SetRenderPromise
  /\ marker_tracks_call (fst (reached signals))
  /\ settles_with (past_interception v r ++ [PrepareSettles Rejected]) Rejected
  /\ settles_with
       (past_interception v r ++ [PrepareSettles Fulfilled; RenderSettles Rejected])
       Rejected
  /\ settles_with
       (past_interception v r ++ [PrepareSettles Fulfilled; RenderSettles Fulfilled])
       Fulfilled.
Proof.
  intros Hshould Hidle reached settles_with.
  subst reached settles_with. cbv beta.
  split; [|split; [|split]].
  - unfold render. rewrite Hshould. now destruct (allowsImmediateRender _ _ _).
  - unfold render. rewrite Hshould. now destruct (allowsImmediateRender _ _ _).
  - unfold render_then.
    assert (H0 : marker_tracks_call (fst (render v r))).
    { unfold render, marker_tracks_call. rewrite Hshould.
      now destruct (allowsImmediateRender _ _ _). }
    destruct (render v r) as [c evs]. now apply run_marker.
  - unfold render_then, render, past_interception. rewrite Hshould.
    destruct (allowsImmediateRender _ _ _); simpl;
      destruct finalize_on_failure; simpl; repeat split.
Qed.

Lemma renderPromise_lifetime_witness :
  shouldRender a_renderer = true
  /\ renderPromise (a_view intercepting) = false
  /\ marker_tracks_call
       (fst (render_then true (a_view intercepting) a_renderer
               [Resume; PrepareSettles Rejected])).
Proof.
  split; [reflexivity | split; [reflexivity|]].
  exact (proj1 (proj2 (proj2
           (renderPromise_lifetime true (a_view intercepting) a_renderer
              [Resume; PrepareSettles Rejected] eq_refl eq_refl)))).
Defined.

(** *** C3 *)

(** C3: with [shouldRender] and a Delegate that does not allow an
    immediate render, the call of [render] suspends having asked the
    Delegate only; as long as [resume] is not called the call stays
    suspended and neither [renderer.prepareToRender] nor
    [renderer.render] is called; once [resume] is called the pipeline
    runs through prepare, render and finalize and settles. *)
Theorem render_waits_for_resume
    (finalize_on_failure : bool) (v : View) (r : Renderer)
    (before : list Signal) :
  shouldRender r = true ->
  allowsImmediateRender (delegate v) (snapshot v) (renderMethod r) = false ->
  Forall (fun s => s <> Resume) before ->
  let waiting := render_then finalize_on_failure v r before in
  let resumed :=
    render_then finalize_on_failure v r
      (before ++ [Resume; PrepareSettles Fulfilled; RenderSettles Fulfilled]) in
  waiting = render v r
  /\ stage (fst waiting) = Suspended
  /\ snd waiting = asked v r
  /\ existsb is_render_work (snd waiting) = false
  /\ snd (render_then finalize_on_failure v r (before ++ [Resume]))
     = asked v r ++ [MarkAsPreview (isPreview r); PrepareToRender]
  /\ snd resumed = asked v r ++ pipeline v r
  /\ stage (fst resumed) = Settled Fulfilled
  /\ renderPromise (view (fst resumed)) = false.
Proof.
  intros Hshould Hdeny Hbefore waiting resumed.
  assert (Hstart : render v r
                   = ({| view := with_renderPromise v true; renderer := r;
                         stage := Suspended |}, asked v r)).
  { unfold render. now rewrite Hshould, Hdeny. }
  assert (Hwait : waiting = render v r).
  { subst waiting. unfold render_then. rewrite Hstart.
    now apply run_suspended. }
  assert (Hrun : forall rest,
             render_then finalize_on_failure v r (before ++ rest)
             = run finalize_on_failure
                 {| view := with_renderPromise v true; renderer := r;
                    stage := Suspended |} (asked v r) rest).
  { intros rest. unfold render_then. rewrite Hstart, run_app.
    now rewrite run_suspended. }
  subst resumed. rewrite !Hrun, Hwait, Hstart. simpl. repeat split.
Qed.

Lemma render_waits_for_resume_witness :
  shouldRender a_renderer = true
  /\ Forall (fun s => s <> Resume) [RenderSettles Fulfilled]
  /\ snd (render_then false (a_view intercepting) a_renderer
            [RenderSettles Fulfilled])
     = asked (a_view intercepting) a_renderer.
Proof.
  assert (H : Forall (fun s => s <> Resume) [RenderSettles Fulfilled]).
  { constructor; [discriminate | constructor]. }
  split; [reflexivity | split; [exact H|]].
  exact (proj1 (proj2 (proj2
           (render_waits_for_resume false (a_view intercepting) a_renderer
              [RenderSettles Fulfilled] eq_refl eq_refl H)))).
Defined.

(** *** C4 *)

(** C4: without [shouldRender] but with [willRender], [render] calls
    [invalidate] with the renderer's reload reason, which notifies
    [delegate.viewInvalidated] with that reason, and returns: the call is
    settled, the View is as it was, and nothing else is done, then or
    later. *)
Theorem render_invalidates
    (finalize_on_failure : bool) (v : View) (r : Renderer)
    (signals : list Signal) :
  shouldRender r = false ->
  willRender r = true ->
  invalidate (reloadReason r) = [ViewInvalidated (reloadReason r)]
  /\ render v r
     = ({| view := v; renderer := r; stage := Settled Fulfilled |},
        invalidate (reloadReason r))
  /\ render_then finalize_on_failure v r signals = render v r
  /\ Forall (fun e => phase e = 0) (snd (render v r)).
Proof.
  intros Hshould Hwill.
  assert (Hstart : render v r
                   = ({| view := v; renderer := r;
                         stage := Settled Fulfilled |},
                      invalidate (reloadReason r))).
  { unfold render. now rewrite Hshould, Hwill. }
  repeat split.
  - exact Hstart.
  - unfold render_then. rewrite Hstart. now apply run_settled.
  - rewrite Hstart. simpl. repeat constructor.
Qed.

Lemma render_invalidates_witness :
  shouldRender a_reloading_renderer = false
  /\ willRender a_reloading_renderer = true
  /\ snd (render (a_view allowing) a_reloading_renderer)
     = [ViewInvalidated (Some "test-reason")].
Proof.
  split; [reflexivity | split; [reflexivity|]].
  pose proof (render_invalidates false (a_view allowing) a_reloading_renderer
                [] eq_refl eq_refl) as (_ & H & _).
  rewrite H. reflexivity.
Defined.

End ViewSpec.

(** ** Paths of URLs *)

Module UrlPathSpec.
Import JsString JsStringFacts Url UrlTerms UrlPath TextTerms MoreTerms.

Lemma split_nonempty (sep : ascii) (s : string) : split sep s <> [].
Proof.
  induction s as [|c s IH]; simpl; [discriminate|].
  destruct (Ascii.eqb c sep); [discriminate|].
  destruct (split sep s); [contradiction | discriminate].
Qed.

Lemma join_split (sep : ascii) (s : string) : join sep (split sep s) = s.
Proof.
  induction s as [|c s IH]; [reflexivity|]. simpl.
  pose proof (split_nonempty sep s) as Hne.
  destruct (Ascii.eqb_spec c sep) as [->|Hc].
  - destruct (split sep s) as [|p ps] eqn:E; [contradiction|].
    simpl in *. now rewrite IH.
  - destruct (split sep s) as [|p ps] eqn:E; [contradiction|].
    destruct ps as [|q qs]; simpl in *; now rewrite <- IH.
Qed.

Lemma split_pieces (sep : ascii) (s : string) :
  Forall (fun piece => contains sep piece = false) (split sep s).
Proof.
  induction s as [|c s IH]; simpl; [repeat constructor|].
  destruct (Ascii.eqb c sep) eqn:Hc.
  - constructor; [reflexivity | exact IH].
  - destruct (split sep s) as [|p ps]; [repeat constructor; simpl; now rewrite Hc|].
    apply Forall_cons in IH as [Hp Hps]. constructor; [|exact Hps].
    simpl. now rewrite Hc.
Qed.

Lemma split_length (sep : ascii) (s : string) :
  length (split sep s) = S (count sep s).
Proof.
  induction s as [|c s IH]; simpl; [reflexivity|].
  destruct (Ascii.eqb c sep); simpl; [now rewrite IH|].
  pose proof (split_nonempty sep s).
  destruct (split sep s) as [|p ps]; [contradiction|]. simpl in *. lia.
Qed.

Lemma array_slice_1 {A : Type} (l : list A) : array_slice l 1 = drop 1 l.
Proof.
  unfold array_slice. replace (1 <? 0)%Z with false by reflexivity.
  destruct l as [|x l]; [reflexivity|].
  replace (Z.to_nat _) with 1%nat; [reflexivity|].
  simpl length. lia.
Qed.

Lemma array_slice_last {A : Type} (l : list A) :
  head (array_slice l (-1)) = last l.
Proof.
  unfold array_slice. replace (-1 <? 0)%Z with true by reflexivity.
  destruct l as [|x l]; [reflexivity|].
  replace (Z.to_nat _) with (length l) by (simpl length; lia).
  revert x. induction l as [|y l IH]; intros x; [reflexivity|].
  simpl. rewrite <- (IH y). reflexivity.
Qed.

Lemma last_cons_nonempty {A : Type} (x : A) (l : list A) :
  l <> [] -> last (x :: l) = last l.
Proof. destruct l; [contradiction | reflexivity]. Qed.

Lemma contains_append (c : ascii) (s t : string) :
  contains c (s +:+ t) = contains c s || contains c t.
Proof.
  induction s as [|d s IH]; [reflexivity|].
  change (String d s +:+ t) with (String d (s +:+ t)).
  simpl. rewrite IH. now rewrite orb_assoc.
Qed.

(** The last piece of a split: it holds no separator; without a separator
    in the text it is the only piece; otherwise the text ends with the
    separator and that piece. *)
Lemma split_last (sep : ascii) (s : string) :
  exists l,
    last (split sep s) = Some l
    /\ contains sep l = false
    /\ (contains sep s = false -> split sep s = [s])
    /\ (contains sep s = true ->
        last (drop 1 (split sep s)) = Some l
        /\ exists p, s = p +:+ String sep l).
Proof.
  induction s as [|c s (l & Hlast & Hl & Hnone & Hsome)].
  - exists EmptyString. simpl.
    split; [reflexivity|]. split; [reflexivity|].
    split; [intros _; reflexivity | discriminate].
  - simpl. destruct (Ascii.eqb_spec c sep) as [->|Hc].
    + exists l. pose proof (split_nonempty sep s) as Hne.
      rewrite (last_cons_nonempty _ _ Hne). simpl.
      split; [exact Hlast|]. split; [exact Hl|].
      split; [discriminate|]. intros _. split; [exact Hlast|].
      destruct (contains sep s) eqn:E.
      * destruct (Hsome eq_refl) as [_ [p ->]]. now exists (String sep p).
      * rewrite (Hnone eq_refl) in Hlast. injection Hlast as <-.
        now exists EmptyString.
    + simpl. destruct (contains sep s) eqn:E.
      * destruct (Hsome eq_refl) as [Hdrop [p Hp]].
        destruct (split sep s) as [|h t] eqn:Es; [discriminate|].
        simpl in Hdrop.
        assert (Ht : t <> []) by (intros ->; discriminate).
        exists l. rewrite (last_cons_nonempty _ _ Ht).
        rewrite (last_cons_nonempty _ _ Ht) in Hlast. simpl.
        split; [exact Hlast|]. split; [exact Hl|].
        split; [discriminate|]. intros _. split; [exact Hdrop|].
        exists (String c p). now rewrite Hp.
      * rewrite (Hnone eq_refl). exists (String c s). simpl.
        destruct (Ascii.eqb_spec c sep) as [|_]; [contradiction|].
        rewrite E. split; [reflexivity|]. split; [reflexivity|].
        split; [reflexivity | discriminate].
Qed.

Lemma last_component (url : URL) :
  getLastPathComponent url = last (drop 1 (split "/" (pathname url))).
Proof.
  unfold getLastPathComponent, getPathComponents.
  now rewrite array_slice_last, array_slice_1.
Qed.

(** X5: the components of a pathname hold no slash, there are as many of
    them as the pathname has slashes, and for a pathname that starts with a
    slash, joining them with slashes gives back the pathname without its
    first slash. *)
Theorem getPathComponents_round_trip (url : URL) (o rest : string) :
  Forall (fun piece => contains "/" piece = false) (getPathComponents url)
  /\ length (getPathComponents url) = count "/" (pathname url)
  /\ join "/" (getPathComponents {| origin := o; pathname := String "/" rest |})
     = rest.
Proof.
  unfold getPathComponents. rewrite !array_slice_1. repeat split.
  - pose proof (split_pieces "/" (pathname url)) as H.
    destruct (split "/" (pathname url)); [constructor|].
    now apply Forall_cons in H as [_ H].
  - rewrite length_drop, split_length. lia.
  - simpl. apply join_split.
Qed.

(** The last piece after the first: none without a slash; otherwise the
    text after the last slash. *)
Lemma last_piece (path : string) :
  match last (drop 1 (split "/" path)) with
  | None => contains "/" path = false
  | Some piece =>
      contains "/" piece = false
      /\ exists p, path = p +:+ String "/" piece
  end.
Proof.
  destruct (split_last "/" path) as (l & Hlast & Hl & Hnone & Hsome).
  destruct (contains "/" path) eqn:E.
  - destruct (Hsome eq_refl) as [-> Hp]. split; assumption.
  - now rewrite (Hnone eq_refl).
Qed.

(** X6: [getLastPathComponent] is [undefined] exactly for a pathname
    without a slash; otherwise it is the text after the last slash of the
    pathname. *)
Theorem getLastPathComponent_spec (url : URL) :
  match getLastPathComponent url with
  | None => contains "/" (pathname url) = false
  | Some last =>
      contains "/" last = false
      /\ exists p, pathname url = p +:+ String "/" last
  end.
Proof. rewrite last_component. apply last_piece. Qed.

Lemma match_extension_Some (s m : string) :
  match_extension s = Some m ->
  exists stem e, s = stem +:+ m /\ m = String "." e /\ no_dot e = true.
Proof.
  induction s as [|c s IH]; simpl; [discriminate|].
  destruct (Ascii.eqb c "." && no_dot s) eqn:E.
  - intros [= <-]. apply andb_true_iff in E as [Hc Hs].
    apply Ascii.eqb_eq in Hc. subst c. now exists EmptyString, s.
  - intros H. destruct (IH H) as (stem & e & -> & Hm & He).
    now exists (String c stem), e.
Qed.

Lemma match_extension_None (s : string) :
  match_extension s = None -> no_dot s = true.
Proof.
  induction s as [|c s IH]; simpl; [reflexivity|].
  destruct (Ascii.eqb c ".") eqn:Hc; simpl.
  - destruct (no_dot s) eqn:Hs; [discriminate|].
    intros H. pose proof (IH H). congruence.
  - auto.
Qed.

(** X7: [getExtension] throws exactly for a pathname without a slash;
    otherwise the extension is the end of the last component: empty when
    that component has no dot, and else its last dot with what follows,
    which holds no further dot. *)
Theorem getExtension_spec (url : URL) :
  match getExtension url with
  | ThrowsTypeError => contains "/" (pathname url) = false
  | Returns ext =>
      contains "/" (pathname url) = true
      /\ contains "/" ext = false
      /\ exists last stem,
           getLastPathComponent url = Some last
           /\ last = stem +:+ ext
           /\ ((ext = EmptyString /\ no_dot last = true)
               \/ exists e, ext = String "." e /\ no_dot e = true)
  end.
Proof.
  unfold getExtension. pose proof (last_piece (pathname url)) as H.
  rewrite <- last_component in H.
  destruct (getLastPathComponent url) as [last|]; [|exact H].
  destruct H as [Hlast [p Hp]].
  assert (Hslash : contains "/" (pathname url) = true).
  { rewrite Hp, contains_append. simpl. now rewrite orb_true_r. }
  destruct (match_extension last) as [m|] eqn:E.
  - destruct (match_extension_Some _ _ E) as (stem & e & Hs & Hm & He).
    split; [exact Hslash|]. split.
    + rewrite Hs, contains_append in Hlast.
      now apply orb_false_iff in Hlast as [_ Hlast].
    + exists last, stem. repeat split; try assumption. right. now exists e.
  - split; [exact Hslash|]. split; [reflexivity|].
    exists last, last. repeat split.
    + clear. induction last as [|c s IH]; [reflexivity|].
      change (String c s +:+ EmptyString) with (String c (s +:+ EmptyString)).
      now rewrite <- IH.
    + left. split; [reflexivity | now apply match_extension_None].
Qed.

(** *** Prefixes and suffixes *)

Lemma append_empty_r (s : string) : s +:+ EmptyString = s.
Proof.
  induction s as [|c s IH]; [reflexivity|].
  change (String c s +:+ EmptyString) with (String c (s +:+ EmptyString)).
  now rewrite IH.
Qed.

Lemma append_assoc (s t u : string) : (s +:+ t) +:+ u = s +:+ (t +:+ u).
Proof.
  induction s as [|c s IH]; [reflexivity|].
  change (String c s +:+ t) with (String c (s +:+ t)).
  change (String c (s +:+ t) +:+ u) with (String c ((s +:+ t) +:+ u)).
  now rewrite IH.
Qed.

Lemma startsWith_iff (s t : string) :
  startsWith s t = true <-> exists r, s = t +:+ r.
Proof.
  unfold startsWith. revert s. induction t as [|c t IH]; intros s.
  - split; [intros _; now exists s | intros _; now destruct s].
  - destruct s as [|d s]; simpl.
    + split; [discriminate | intros [r Hr]; discriminate Hr].
    + destruct (Ascii.ascii_dec c d) as [->|Hcd].
      * rewrite IH. split; intros [r Hr]; exists r.
        -- now rewrite Hr.
        -- now injection Hr.
      * split; [discriminate|]. intros [r Hr]. injection Hr as Hd _. congruence.
Qed.

Lemma substring_skip (p t : string) (m : nat) :
  String.substring (String.length p) m (p +:+ t) = String.substring 0 m t.
Proof. induction p as [|c p IH]; [reflexivity | exact IH]. Qed.

Lemma substring_split (s : string) :
  forall k, k <= String.length s ->
  s = String.substring 0 k s +:+ String.substring k (String.length s - k) s.
Proof.
  induction s as [|c s IH]; intros k Hk.
  - simpl in Hk. replace k with 0 by lia. reflexivity.
  - destruct k as [|k].
    + simpl. now rewrite substring_all.
    + simpl in Hk |- *.
      change (String c (String.substring 0 k s) +:+ ?x)
        with (String c (String.substring 0 k s +:+ x)).
      f_equal. apply IH. lia.
Qed.

Lemma endsWith_iff (s t : string) :
  endsWith s t = true <-> exists p, s = p +:+ t.
Proof.
  unfold endsWith. split.
  - intros H. apply andb_true_iff in H as [Hle Heq].
    apply Nat.leb_le in Hle. apply String.eqb_eq in Heq.
    exists (String.substring 0 (String.length s - String.length t) s).
    pose proof (substring_split s (String.length s - String.length t)
                  ltac:(lia)) as Hsplit.
    replace (String.length s - (String.length s - String.length t))
      with (String.length t) in Hsplit by lia.
    now rewrite Heq in Hsplit.
  - intros [p ->]. rewrite length_append. apply andb_true_iff. split.
    + apply Nat.leb_le. lia.
    + apply String.eqb_eq.
      replace (String.length p + String.length t - String.length t)
        with (String.length p) by lia.
      rewrite substring_skip. apply substring_all.
Qed.

Lemma append_length_ne (s t : string) : t <> EmptyString -> s +:+ t <> s.
Proof.
  intros Ht H. apply (f_equal String.length) in H. rewrite length_append in H.
  destruct t; [contradiction | simpl in H; lia].
Qed.

Lemma addTrailingSlash_cases (value : string) :
  addTrailingSlash value = value \/ addTrailingSlash value = value +:+ "/".
Proof.
  unfold addTrailingSlash. destruct (endsWith value "/"); [now left | now right].
Qed.

(** X4: the result of [addTrailingSlash] ends with a slash, applying it
    twice is the same as applying it once, the result is the value or the
    value with one slash appended, and it is the value exactly when the
    value ends with a slash already. *)
Theorem addTrailingSlash_spec (value : string) :
  endsWith (addTrailingSlash value) "/" = true
  /\ addTrailingSlash (addTrailingSlash value) = addTrailingSlash value
  /\ (addTrailingSlash value = value \/ addTrailingSlash value = value +:+ "/")
  /\ (addTrailingSlash value = value <-> endsWith value "/" = true).
Proof.
  assert (Hends : endsWith (addTrailingSlash value) "/" = true).
  { unfold addTrailingSlash. destruct (endsWith value "/") eqn:E; [exact E|].
    apply endsWith_iff. now exists value. }
  split; [exact Hends|]. split.
  - unfold addTrailingSlash at 1. now rewrite Hends.
  - unfold addTrailingSlash. destruct (endsWith value "/") eqn:E.
    + split; [now left | tauto].
    + split; [now right|]. split; [|discriminate].
      intros H. exfalso. revert H. now apply append_length_ne.
Qed.

Lemma startsWith_refl (s : string) : startsWith s s = true.
Proof. apply startsWith_iff. exists EmptyString. now rewrite append_empty_r. Qed.

Lemma startsWith_trans (s t u : string) :
  startsWith s t = true -> startsWith t u = true -> startsWith s u = true.
Proof.
  rewrite !startsWith_iff. intros [r ->] [q ->].
  exists (q +:+ r). apply append_assoc.
Qed.

(** If [a] followed by a slash starts with [b] and goes on, then [a]
    itself starts with [b]. *)
Lemma append_slash_starts (b : string) :
  forall a r c r',
  a +:+ "/" = b +:+ String c r' -> r = String c r' -> exists q, a = b +:+ q.
Proof.
  induction b as [|d b IH]; intros a r c r' H _.
  - now exists a.
  - destruct a as [|e a].
    + simpl in H. injection H as _ H. destruct b; discriminate H.
    + change (String e a +:+ "/") with (String e (a +:+ "/")) in H.
      change (String d b +:+ String c r') with (String d (b +:+ String c r')) in H.
      injection H as -> H. destruct (IH a (String c r') c r' H eq_refl) as [q ->].
      now exists q.
Qed.

(** X8: [isPrefixedBy] is reflexive and transitive. *)
Theorem isPrefixedBy_preorder (a b c : URL) :
  isPrefixedBy a a = true
  /\ (isPrefixedBy a b = true -> isPrefixedBy b c = true ->
      isPrefixedBy a c = true).
Proof.
  unfold isPrefixedBy. split.
  - rewrite String.eqb_refl. simpl. apply startsWith_refl.
  - destruct (String.eqb_spec (origin a) (origin b)) as [Hab|]; [|discriminate].
    destruct (String.eqb_spec (origin b) (origin c)) as [Hbc|]; [|discriminate].
    simpl. intros H1 H2. rewrite Hab, Hbc, String.eqb_refl. simpl.
    exact (startsWith_trans _ _ _ H2 H1).
Qed.

(** X9: a URL is prefixed by a base exactly when the origins are equal
    and its pathname either is the base directory itself (equal once both
    carry a trailing slash) or starts with the base pathname and its
    trailing slash; so a base [/foo] prefixes neither [/foobar] nor
    [/foo.html]. *)
Theorem isPrefixedBy_directory (baseURL url : URL) :
  let basePath := addTrailingSlash (pathname baseURL) in
  isPrefixedBy baseURL url = true
  <-> origin baseURL = origin url
      /\ (addTrailingSlash (pathname url) = basePath
          \/ startsWith (pathname url) basePath = true).
Proof.
  intros basePath. unfold isPrefixedBy. fold basePath.
  destruct (String.eqb_spec (origin baseURL) (origin url)) as [Ho|Ho]; simpl.
  2:{ split; [discriminate | intros [H _]; contradiction]. }
  split.
  - intros H. split; [exact Ho|].
    destruct (addTrailingSlash_cases (pathname url)) as [E|E].
    + right. now rewrite E in H.
    + apply startsWith_iff in H as [r Hr]. destruct r as [|c r].
      * left. now rewrite Hr, append_empty_r.
      * right. apply startsWith_iff. rewrite E in Hr.
        exact (append_slash_starts _ _ (String c r) c r Hr eq_refl).
  - intros [_ [E|H]].
    + rewrite E. apply startsWith_refl.
    + apply startsWith_iff in H as [r Hr]. apply startsWith_iff.
      destruct (addTrailingSlash_cases (pathname url)) as [E|E];
        rewrite E, Hr.
      * now exists r.
      * exists (r +:+ "/"). apply append_assoc.
Qed.

(** X10: [locationIsVisitable] throws exactly when the pathname of the
    location has no slash, whatever the root and the configured set are; and
    it returns [true] exactly when the location is prefixed by the root and
    its extension is not in the set. *)
Theorem locationIsVisitable_spec
    (unvisitableExtensions : gset string) (location rootLocation : URL) :
  (locationIsVisitable unvisitableExtensions location rootLocation
   = ThrowsTypeError
   <-> contains "/" (pathname location) = false)
  /\ (locationIsVisitable unvisitableExtensions location rootLocation
      = Returns true
      <-> isPrefixedBy rootLocation location = true
          /\ exists extension,
               getExtension location = Returns extension
               /\ extension ∉ unvisitableExtensions).
Proof.
  unfold locationIsVisitable.
  assert (H : match getExtension location with
              | ThrowsTypeError => contains "/" (pathname location) = false
              | Returns _ => contains "/" (pathname location) = true
              end).
  { unfold getExtension. pose proof (last_piece (pathname location)) as H.
    rewrite <- last_component in H.
    destruct (getLastPathComponent location) as [last|]; [|exact H].
    destruct H as [_ [p ->]]. rewrite contains_append. simpl.
    now rewrite orb_true_r. }
  destruct (getExtension location) as [ext|].
  - rename H into Hslash. split.
    + split; [discriminate | congruence].
    + split.
      * intros [= Hb]. apply andb_true_iff in Hb as [Hin Hnot].
        split; [exact Hin|]. exists ext. split; [reflexivity|].
        apply negb_true_iff, bool_decide_eq_false in Hnot. exact Hnot.
      * intros [Hin (e & [= <-] & Hnot)]. f_equal.
        apply andb_true_iff. split; [exact Hin|].
        now apply negb_true_iff, bool_decide_eq_false.
  - split; [tauto|]. split; [discriminate|].
    intros [_ (e & He & _)]. discriminate He.
Qed.

(** *** Anchors and request URLs, further *)

Lemma slice_0_prefix (s : string) (e : Z) : exists r, s = slice s 0 e +:+ r.
Proof.
  unfold slice, clamp_index, len.
  replace (0 <? 0)%Z with false by reflexivity.
  set (n := Z.of_nat (String.length s)).
  set (to := if (e <? 0)%Z then Z.max (n + e) 0 else Z.min e n).
  assert (Hto : (0 <= to <= n)%Z).
  { subst to n. destruct (e <? 0)%Z eqn:E; [lia|].
    apply Z.ltb_ge in E. lia. }
  replace (Z.to_nat (Z.min 0 n)) with 0 by lia.
  eexists. apply substring_split. subst n. lia.
Qed.

(** X1: whatever the URL-like value, [getRequestURL] returns a prefix of
    its [href]. *)
Theorem getRequestURL_prefix (url : URLLike) :
  exists rest, href url = getRequestURL url +:+ rest.
Proof.
  unfold getRequestURL. destruct (getAnchor url) as [a|].
  - apply slice_0_prefix.
  - exists EmptyString. now rewrite append_empty_r.
Qed.

Lemma match_hash_none (s : string) :
  contains "#" s = false -> match_hash_to_end s = None.
Proof.
  induction s as [|c s IH]; simpl; [reflexivity|].
  intros H. apply orb_false_iff in H as [Hc Hs].
  rewrite Hc. simpl. now apply IH.
Qed.

Lemma match_hash_first (s : string) :
  no_line_terminator s = true ->
  match match_hash_to_end s with
  | None => contains "#" s = false
  | Some a => exists p, s = p +:+ String "#" a /\ contains "#" p = false
  end.
Proof.
  induction s as [|c s IH]; simpl; [reflexivity|].
  intros H. apply andb_true_iff in H as [_ Hs]. rewrite Hs, andb_true_r.
  destruct (Ascii.eqb_spec c "#") as [->|Hc].
  - now exists EmptyString.
  - specialize (IH Hs). destruct (match_hash_to_end s) as [a|].
    + destruct IH as (p & -> & Hp). exists (String c p). split; [reflexivity|].
      simpl. destruct (Ascii.eqb_spec c "#"); [contradiction | exact Hp].
    + exact IH.
Qed.

(** X2: the cache key of a URL is its address without the fragment, so
    two URLs that differ only in their fragment have the same cache key. *)
Theorem toCacheKey_ignores_fragment (page f g : string) :
  toCacheKey (with_fragment page f) = page
  /\ toCacheKey (with_fragment page f) = toCacheKey (with_fragment page g).
Proof.
  assert (H : forall x, toCacheKey (with_fragment page x) = page).
  { intros x. unfold toCacheKey, getRequestURL, getAnchor, with_fragment.
    cbn [hash href].
    replace (truthy (String "#" x)) with true by reflexivity.
    replace (0 <? len (String "#" x))%Z with true
      by (symmetry; apply Z.ltb_lt; unfold len; simpl String.length; lia).
    cbn [andb]. rewrite slice_from_1. apply slice_strip_fragment. }
  split; [apply H | now rewrite !H].
Qed.

(** X3: when [hash] is absent or empty and [href] holds no line
    terminator, [href] is cut at its first hash sign: the request URL holds
    no hash sign and the anchor is all that follows the first one (without a
    hash sign there is no anchor and the request URL is [href]); stripping
    the result again changes nothing. *)
Theorem getRequestURL_first_hash (url : URLLike) :
  hash url = None \/ hash url = Some EmptyString ->
  no_line_terminator (href url) = true ->
  match getAnchor url with
  | None => contains "#" (href url) = false /\ getRequestURL url = href url
  | Some anchor =>
      href url = getRequestURL url +:+ String "#" anchor
      /\ contains "#" (getRequestURL url) = false
  end
  /\ getRequestURL {| href := getRequestURL url; hash := hash url |}
     = getRequestURL url.
Proof.
  intros Hhash Hline.
  assert (Hanchor : forall h, getAnchor {| href := h; hash := hash url |}
                              = match_hash_to_end h).
  { intros h. unfold getAnchor. cbn [hash href].
    destruct Hhash as [-> | ->]; simpl; apply f_equal, UrlSpec.or_empty. }
  assert (Hu : getAnchor url = match_hash_to_end (href url)).
  { destruct url as [h ha]. apply (Hanchor h). }
  pose proof (match_hash_first _ Hline) as Hfirst.
  assert (Hclean : contains "#" (getRequestURL url) = false).
  { unfold getRequestURL. rewrite Hu.
    destruct (match_hash_to_end (href url)) as [a|]; [|exact Hfirst].
    destruct Hfirst as (p & Hp & Hclean). rewrite Hp.
    now rewrite slice_strip_fragment. }
  split.
  - unfold getRequestURL in *. rewrite Hu in *.
    destruct (match_hash_to_end (href url)) as [a|].
    + split; [|exact Hclean]. destruct Hfirst as (p & Hp & _).
      rewrite Hp at 1. rewrite Hp. now rewrite slice_strip_fragment.
    + split; [exact Hfirst | reflexivity].
  - unfold getRequestURL at 1. rewrite Hanchor.
    now rewrite (match_hash_none _ Hclean).
Qed.

Lemma getRequestURL_first_hash_witness :
  let url := {| href := "https://example.com/path#one#two";
                hash := Some EmptyString |} in
  getAnchor url = Some "one#two"
  /\ getRequestURL url = "https://example.com/path".
Proof.
  intros url.
  assert (Hhash : hash url = None \/ hash url = Some EmptyString)
    by (right; reflexivity).
  assert (Hline : no_line_terminator (href url) = true) by reflexivity.
  pose proof (getRequestURL_first_hash url Hhash Hline) as [_ H].
  split; [reflexivity|]. rewrite <- H. reflexivity.
Defined.

Lemma isPrefixedBy_preorder_witness :
  let site := {| origin := "https://example.com"; pathname := "/" |} in
  let docs := {| origin := "https://example.com"; pathname := "/docs" |} in
  let page := {| origin := "https://example.com"; pathname := "/docs/a.html" |} in
  isPrefixedBy site docs = true
  /\ isPrefixedBy docs page = true
  /\ isPrefixedBy site page = true.
Proof.
  intros site docs page.
  assert (H1 : isPrefixedBy site docs = true) by reflexivity.
  assert (H2 : isPrefixedBy docs page = true) by reflexivity.
  split; [exact H1 | split; [exact H2|]].
  exact (proj2 (isPrefixedBy_preorder site docs page) H1 H2).
Defined.

End UrlPathSpec.

(** ** Snapshot: further properties *)

Module SnapshotMore.
Import Dom Css JsString CssTerms CssFacts ListFacts Snapshot.
Import AnchorTerms PermanentTerms MoreTerms PermanentSpec.

(** X11: for every anchor, also a missing or empty one, and whatever the
    queries of the platform do, [hasAnchor] returns [true] when
    [getElementForAnchor] returns an element, [false] when it returns
    [null], and throws when it throws. *)
Theorem hasAnchor_agrees `{ParentNode} (this : Snapshot) (anchor : option string) :
  hasAnchor this anchor
  = (found ← getElementForAnchor this anchor;
     mret (match found with Some _ => true | None => false end)).
Proof.
  destruct anchor as [[|c a]|]; reflexivity.
Qed.

Lemma size_in (cs : list Element) (c : Element) :
  In c cs -> size c <= list_sum (List.map size cs).
Proof.
  induction cs as [|d cs IH]; simpl; [contradiction|].
  intros [->|Hin]; [lia|]. specialize (IH Hin). lia.
Qed.

Lemma subtree_size (n : nat) :
  forall e x, size e <= n -> In x (subtree e) -> size x <= size e.
Proof.
  induction n as [|n IH]; intros e x Hn Hx.
  - destruct e; simpl in Hn; lia.
  - destruct e as [u name attrs cs]. simpl in Hx. destruct Hx as [<-|Hx]; [lia|].
    apply in_flat_map in Hx as (c & Hc & Hx).
    pose proof (size_in cs c Hc) as Hle. simpl in Hn |- *.
    assert (size x <= size c) by (apply (IH c x); [lia | exact Hx]). lia.
Qed.

Lemma descendants_smaller (e x : Element) :
  In x (descendants e) -> size x < size e.
Proof.
  unfold descendants. intros Hx. apply in_flat_map in Hx as (c & Hc & Hx).
  pose proof (subtree_size (size c) c x (le_n _) Hx).
  destruct e as [u name attrs cs]. simpl in Hc |- *.
  pose proof (size_in cs c Hc). lia.
Qed.

(** X12: for an anchor without single quote, backslash, line break or
    NUL, [getElementForAnchor] does not throw; an element it returns is a
    descendant of the Snapshot's element, never that element itself, and
    has the anchor as identifier or is an [a] element with that name; it
    returns [null] only when no descendant is such an element. *)
Theorem getElementForAnchor_descendant (this : Snapshot) (anchor : string) :
  anchor <> EmptyString -> plain anchor = true ->
  match getElementForAnchor this (Some anchor) with
  | Normal (Some e) =>
      In e (descendants (element this))
      /\ e <> element this
      /\ either_match anchor e = true
  | Normal None =>
      forall e, In e (descendants (element this)) -> either_match anchor e = false
  | Throw _ => False
  end.
Proof.
  intros Hne Hplain.
  rewrite (AnchorSpec.getElementForAnchor_plain this anchor Hne Hplain).
  destruct (List.find _ _) as [e|] eqn:E.
  - apply List.find_some in E as [Hin Hm]. split; [exact Hin|]. split; [|exact Hm].
    intros ->. apply descendants_smaller in Hin. lia.
  - intros e He. exact (List.find_none _ _ E e He).
Qed.

(** X13: [permanentElements] does not throw, and returns, in document
    order, exactly the descendants that carry an [id] attribute (of any
    value) and the [data-turbo-permanent] attribute. *)
Theorem permanentElements_contract (s : Snapshot) :
  permanentElements s = Normal (permanent_in s)
  /\ forall e,
       In e (permanent_in s)
       <-> In e (descendants (element s))
           /\ hasAttribute e "id" = true
           /\ hasAttribute e "data-turbo-permanent" = true.
Proof.
  split; [apply permanentElements_spec|].
  intros e. unfold permanent_in, is_permanent. rewrite filter_In, andb_true_iff.
  tauto.
Qed.

Lemma permanent_with_id_Some (s : Snapshot) (i : string) (e : Element) :
  permanent_with_id s i = Some e -> In e (permanent_in s) /\ Dom.id e = i.
Proof.
  unfold permanent_with_id, permanent_in. intros H.
  apply List.find_some in H as [Hin Hm]. apply andb_true_iff in Hm as [Hp Hi].
  apply String.eqb_eq in Hi. split; [|exact Hi].
  apply filter_In. now split.
Qed.

Lemma permanent_with_id_None (s : Snapshot) (i : string) (e : Element) :
  permanent_with_id s i = None -> In e (permanent_in s) -> Dom.id e <> i.
Proof.
  unfold permanent_with_id, permanent_in. intros H Hin Hi.
  apply filter_In in Hin as [Hin Hp].
  pose proof (List.find_none _ _ H e Hin) as Hm. cbv beta in Hm.
  rewrite Hp in Hm. simpl in Hm. apply String.eqb_neq in Hm. contradiction.
Qed.

(** X14: for an identifier, [getPermanentElementById] does not throw; an
    element it returns is one of [permanentElements] and has that
    identifier; it returns [null] only when none of [permanentElements] has
    it. *)
Theorem getPermanentElementById_lookup (s : Snapshot) (i : string) :
  is_identifier i = true ->
  match getPermanentElementById s i with
  | Normal (Some e) => In e (permanent_in s) /\ Dom.id e = i
  | Normal None => forall e, In e (permanent_in s) -> Dom.id e <> i
  | Throw _ => False
  end.
Proof.
  intros Hi. rewrite (getPermanentElementById_spec s i Hi).
  destruct (permanent_with_id s i) as [e|] eqn:E.
  - now apply permanent_with_id_Some.
  - intros e. now apply permanent_with_id_None.
Qed.

(** *** Duplicate identifiers *)

Lemma record_match_other (other : Snapshot)
    (m : gmap string (Element * Element)) (e : Element) (i : string) :
  Dom.id e <> i -> record_match other m e !! i = m !! i.
Proof.
  intros Hne. unfold record_match.
  destruct (permanent_with_id other (Dom.id e)); [|reflexivity].
  now apply assign_lookup_ne.
Qed.

Lemma find_snoc {A : Type} (f : A -> bool) (l : list A) (x : A) :
  List.find f (l ++ [x])
  = match List.find f l with
    | Some y => Some y
    | None => if f x then Some x else None
    end.
Proof.
  induction l as [|y l IH]; simpl; [reflexivity|].
  destruct (f y); [reflexivity | exact IH].
Qed.

Lemma fold_lookup_last (other : Snapshot) (els : list Element) :
  forall (m : gmap string (Element * Element)) (i : string),
  (forall e, In e els -> Dom.id e <> "__proto__") ->
  List.fold_left (record_match other) els m !! i
  = match last_with_id els i, permanent_with_id other i with
    | Some c, Some n => Some (c, n)
    | _, _ => m !! i
    end.
Proof.
  induction els as [|e els IH]; intros m i Hproto; [reflexivity|].
  simpl. rewrite (IH _ i) by (intros x Hx; apply Hproto; now right).
  unfold last_with_id. simpl rev. rewrite find_snoc.
  fold (last_with_id els i).
  destruct (last_with_id els i) as [c|].
  - destruct (permanent_with_id other i) as [n|] eqn:En; [reflexivity|].
    destruct (String.eqb_spec (Dom.id e) i) as [E|E].
    + unfold record_match. now rewrite E, En.
    + now apply record_match_other.
  - destruct (String.eqb_spec (Dom.id e) i) as [E|E].
    + unfold record_match. rewrite E.
      destruct (permanent_with_id other i) as [n|]; [|reflexivity].
      rewrite <- E. apply assign_lookup_eq, Hproto. now left.
    + rewrite (record_match_other _ _ _ _ E).
      now destruct (permanent_with_id other i).
Qed.

(** X16: where the permanent identifiers of the current Snapshot are
    identifiers other than [__proto__], unique or not, the map holds for
    each identifier with a permanent element on both sides the last such
    element of the current Snapshot in document order, paired with the
    first one of the other Snapshot, and nothing else. *)
Theorem permanent_map_with_duplicates (this other : Snapshot) :
  (forall e, In e (permanent_in this) ->
     is_identifier (Dom.id e) = true /\ Dom.id e <> "__proto__") ->
  exists m,
    getPermanentElementMapForSnapshot this other = Normal m
    /\ forall i c n,
         m !! i = Some (c, n)
         <-> last_with_id (permanent_in this) i = Some c
             /\ permanent_with_id other i = Some n.
Proof.
  intros Hids.
  exists (List.fold_left (record_match other) (permanent_in this) ∅). split.
  - unfold getPermanentElementMapForSnapshot.
    rewrite permanentElements_spec. cbn [mbind Completion_bind cbind].
    apply collect_fold. intros e He. apply (Hids e He).
  - intros i c n.
    rewrite (fold_lookup_last other _ ∅ i)
      by (intros e He; apply (Hids e He)).
    rewrite lookup_empty.
    destruct (last_with_id (permanent_in this) i) as [c'|];
      destruct (permanent_with_id other i) as [n'|];
      split; intros H; try discriminate; try (destruct H; discriminate).
    + injection H as <- <-. now split.
    + destruct H as [[= <-] [= <-]]. reflexivity.
Qed.

Lemma last_with_id_unique (l : list Element) (i : string) :
  NoDup (List.map Dom.id l) ->
  last_with_id l i = List.find (fun e => String.eqb (Dom.id e) i) l.
Proof.
  induction l as [|e l IH]; intros Hnd; [reflexivity|].
  simpl in Hnd. apply NoDup_cons in Hnd as [Hfresh Hnd].
  unfold last_with_id. simpl rev. rewrite find_snoc.
  fold (last_with_id l i). rewrite (IH Hnd). simpl.
  destruct (String.eqb_spec (Dom.id e) i) as [E|E].
  - destruct (List.find _ l) as [x|] eqn:Hf; [|reflexivity].
    apply List.find_some in Hf as [Hin Hx]. apply String.eqb_eq in Hx.
    exfalso. apply Hfresh. apply list_elem_of_In, in_map_iff.
    exists x. split; [congruence | exact Hin].
  - now destruct (List.find _ l).
Qed.

(** X17: where the permanent identifiers of both Snapshots are unique
    identifiers other than [__proto__], the map from the second to the
    first is the map from the first to the second with every pair
    swapped. *)
Theorem permanent_map_symmetric (this other : Snapshot) :
  (forall e, In e (permanent_in this) ->
     is_identifier (Dom.id e) = true /\ Dom.id e <> "__proto__") ->
  (forall e, In e (permanent_in other) ->
     is_identifier (Dom.id e) = true /\ Dom.id e <> "__proto__") ->
  NoDup (List.map Dom.id (permanent_in this)) ->
  NoDup (List.map Dom.id (permanent_in other)) ->
  exists m m',
    getPermanentElementMapForSnapshot this other = Normal m
    /\ getPermanentElementMapForSnapshot other this = Normal m'
    /\ forall i c n, m !! i = Some (c, n) <-> m' !! i = Some (n, c).
Proof.
  intros Hthis Hother Hnd Hnd'.
  assert (Hmap : forall a b,
            (forall e, In e (permanent_in a) ->
               is_identifier (Dom.id e) = true /\ Dom.id e <> "__proto__") ->
            NoDup (List.map Dom.id (permanent_in a)) ->
            getPermanentElementMapForSnapshot a b
            = Normal (List.fold_left (record_match b) (permanent_in a) ∅)
            /\ forall i,
                 List.fold_left (record_match b) (permanent_in a) ∅ !! i
                 = match permanent_with_id a i, permanent_with_id b i with
                   | Some c, Some n => Some (c, n)
                   | _, _ => None
                   end).
  { intros a b Ha Hnda. split.
    - unfold getPermanentElementMapForSnapshot.
      rewrite permanentElements_spec. cbn [mbind Completion_bind cbind].
      apply collect_fold. intros e He. apply (Ha e He).
    - intros i. rewrite (fold_lookup_last b _ ∅ i)
        by (intros e He; apply (Ha e He)).
      rewrite (last_with_id_unique _ i Hnda). unfold permanent_in at 1.
      rewrite find_filter. fold (permanent_with_id a i).
      now rewrite lookup_empty. }
  destruct (Hmap this other Hthis Hnd) as [Hm Hl].
  destruct (Hmap other this Hother Hnd') as [Hm' Hl'].
  eexists. eexists. split; [exact Hm|]. split; [exact Hm'|].
  intros i c n. rewrite Hl, Hl'.
  destruct (permanent_with_id this i), (permanent_with_id other i);
    split; intros H; try discriminate; injection H as <- <-; reflexivity.
Qed.

(** *** When the map throws *)

Lemma getPermanentElementById_throws (s : Snapshot) (i : string) :
  (exists err, getPermanentElementById s i = Throw err)
  <-> parse (permanent_selector i) = None.
Proof.
  unfold getPermanentElementById, getPermanentElementByIdIn, permanent_selector.
  cbn [querySelector selectors]. unfold select.
  destruct (parse _) as [l|].
  - split; [intros [err H]; discriminate H | discriminate].
  - split; [reflexivity | intros _; now exists SyntaxError].
Qed.

Lemma collect_throws (other : Snapshot) (els : list Element) :
  forall m,
  (exists err, collectPermanentElements other els m = Throw err)
  <-> exists e, In e els /\ parse (permanent_selector (Dom.id e)) = None.
Proof.
  induction els as [|e els IH]; intros m.
  - simpl. split; [intros [err H]; discriminate H | intros (e & [] & _)].
  - cbn [collectPermanentElements].
    pose proof (getPermanentElementById_throws other (Dom.id e)) as Hprobe.
    destruct (getPermanentElementById other (Dom.id e)) as [found|err] eqn:E;
      cbn [mbind Completion_bind cbind].
    + rewrite IH. split.
      * intros (x & Hx & Hp). exists x. split; [now right | exact Hp].
      * intros (x & [<-|Hx] & Hp).
        -- apply Hprobe in Hp as [err Herr]. discriminate Herr.
        -- now exists x.
    + split; [|intros _; now exists err].
      intros _. exists e. split; [now left|]. apply Hprobe. now exists err.
Qed.


Lemma digit_starts_no_identifier (c : ascii) (r : string) :
  is_digit c = true -> read_ident (String c r) = None.
Proof.
  intros Hd. unfold read_ident, starts_ident.
  assert (Hs : is_name_start c = false).
  { unfold is_digit in Hd. unfold is_name_start, is_letter.
    apply andb_true_iff in Hd as [H1 H2].
    apply Nat.leb_le in H1. apply Nat.leb_le in H2.
    apply orb_false_iff. split; [apply orb_false_iff; split|].
    - apply andb_false_iff. left. apply Nat.leb_gt. lia.
    - apply andb_false_iff. left. apply Nat.leb_gt. lia.
    - apply Nat.eqb_neq. lia. }
  rewrite Hs.
  assert (Hh : Nat.eqb (code c) 45 = false).
  { unfold is_digit in Hd. apply andb_true_iff in Hd as [H1 _].
    apply Nat.leb_le in H1. apply Nat.eqb_neq. lia. }
  now rewrite Hh.
Qed.

Lemma parse_hash_not_identifier (text : string) :
  read_ident text = None -> parse (String "#" text) = None.
Proof.
  intros H. unfold parse. rewrite read_list_step.
  change (skip_ws (String "#" text)) with (String "#" text).
  rewrite read_compound_step.
  change (read_type (String "#" text)) with (@nil Simple, String "#" text).
  cbv iota beta. rewrite read_subclasses_step, read_subclass_hash.
  unfold named. now rewrite H.
Qed.

(** X19: a permanent element of the current Snapshot whose [id] is empty
    or starts with a digit makes [getPermanentElementMapForSnapshot] throw
    a [SyntaxError], whatever the other Snapshot holds. *)
Theorem permanent_map_throws_on_id (this other : Snapshot) (e : Element) :
  In e (permanent_in this) ->
  (Dom.id e = EmptyString
   \/ exists c r, Dom.id e = String c r /\ is_digit c = true) ->
  getPermanentElementMapForSnapshot this other = Throw SyntaxError.
Proof.
  intros Hin Hid.
  assert (Hparse : parse (permanent_selector (Dom.id e)) = None).
  { destruct Hid as [-> | (c & r & -> & Hd)]; [reflexivity|].
    unfold permanent_selector. expose_text.
    apply parse_hash_not_identifier, digit_starts_no_identifier, Hd. }
  assert (Hthrows : exists err,
             getPermanentElementMapForSnapshot this other = Throw err).
  { unfold getPermanentElementMapForSnapshot. rewrite permanentElements_spec.
    cbn [mbind Completion_bind cbind]. apply collect_throws. now exists e. }
  destruct Hthrows as [[] H]. exact H.
Qed.

(** *** Instances *)

Lemma current_page_identifiers (e : Element) :
  In e (permanent_in current_page) ->
  is_identifier (Dom.id e) = true /\ Dom.id e <> "__proto__".
Proof.
  intros [<-|[<-|[]]]; (split; [reflexivity | discriminate]).
Qed.

Lemma incoming_page_identifiers (e : Element) :
  In e (permanent_in incoming_page) ->
  is_identifier (Dom.id e) = true /\ Dom.id e <> "__proto__".
Proof.
  intros [<-|[<-|[]]]; (split; [reflexivity | discriminate]).
Qed.

Lemma doubled_page_identifiers (e : Element) :
  In e (permanent_in doubled_page) ->
  is_identifier (Dom.id e) = true /\ Dom.id e <> "__proto__".
Proof.
  intros [<-|[<-|[]]]; (split; [reflexivity | discriminate]).
Qed.

Lemma current_page_unique : NoDup (List.map Dom.id (permanent_in current_page)).
Proof. apply (bool_decide_unpack _). reflexivity. Qed.

Lemma incoming_page_unique : NoDup (List.map Dom.id (permanent_in incoming_page)).
Proof. apply (bool_decide_unpack _). reflexivity. Qed.

Lemma getElementForAnchor_descendant_witness :
  "top" <> EmptyString /\ plain "top" = true
  /\ match getElementForAnchor page (Some "top") with
     | Normal (Some e) => e <> element page
     | _ => False
     end.
Proof.
  assert (Hne : "top" <> EmptyString) by discriminate.
  assert (Hplain : plain "top" = true) by reflexivity.
  split; [exact Hne | split; [exact Hplain|]].
  pose proof (getElementForAnchor_descendant page "top" Hne Hplain) as H.
  destruct (getElementForAnchor page (Some "top")) as [[e|]|err].
  - exact (proj1 (proj2 H)).
  - pose proof (H named_link (or_introl eq_refl)) as Hf. discriminate Hf.
  - exact H.
Defined.

Lemma getPermanentElementById_lookup_witness :
  is_identifier "player" = true
  /\ match getPermanentElementById current_page "player" with
     | Normal (Some e) => Dom.id e = "player"
     | _ => False
     end.
Proof.
  split; [reflexivity|].
  pose proof (getPermanentElementById_lookup current_page "player" eq_refl) as H.
  destruct (getPermanentElementById current_page "player") as [[e|]|err].
  - exact (proj2 H).
  - exact (H (permanent 2 "player") (or_intror (or_introl eq_refl)) eq_refl).
  - exact H.
Defined.

Lemma permanent_map_of_identifiers_witness :
  exists m,
    getPermanentElementMapForSnapshot current_page incoming_page = Normal m
    /\ m !! "player" = Some (permanent 2 "player", permanent 11 "player")
    /\ m !! "nav" = None.
Proof.
  destruct (permanent_map_of_identifiers current_page incoming_page
              current_page_identifiers current_page_unique)
    as (m & Hm & Hl).
  exists m. split; [exact Hm|]. split.
  - apply Hl. split; reflexivity.
  - destruct (m !! "nav") as [[c n]|] eqn:E; [|reflexivity].
    apply Hl in E as [_ E]. discriminate E.
Defined.

Lemma permanent_map_with_duplicates_witness :
  exists m,
    getPermanentElementMapForSnapshot doubled_page incoming_page = Normal m
    /\ m !! "player" = Some (permanent 2 "player", permanent 11 "player").
Proof.
  destruct (permanent_map_with_duplicates doubled_page incoming_page
              doubled_page_identifiers)
    as (m & Hm & Hl).
  exists m. split; [exact Hm|]. apply Hl. split; reflexivity.
Defined.

Lemma permanent_map_symmetric_witness :
  exists m m',
    getPermanentElementMapForSnapshot current_page incoming_page = Normal m
    /\ getPermanentElementMapForSnapshot incoming_page current_page = Normal m'
    /\ (m !! "player" = Some (permanent 2 "player", permanent 11 "player")
        <-> m' !! "player" = Some (permanent 11 "player", permanent 2 "player")).
Proof.
  destruct (permanent_map_symmetric current_page incoming_page
              current_page_identifiers incoming_page_identifiers
              current_page_unique incoming_page_unique)
    as (m & m' & Hm & Hm' & Hl).
  exists m, m'. split; [exact Hm|]. split; [exact Hm'|]. apply Hl.
Defined.

Lemma permanent_map_throws_on_id_witness :
  In (permanent 2 "42") (permanent_in numbered_page)
  /\ getPermanentElementMapForSnapshot numbered_page incoming_page
     = Throw SyntaxError.
Proof.
  assert (Hin : In (permanent 2 "42") (permanent_in numbered_page))
    by (right; left; reflexivity).
  split; [exact Hin|].
  apply (permanent_map_throws_on_id numbered_page incoming_page
           (permanent 2 "42") Hin).
  right. exists "4"%char, "2". split; reflexivity.
Defined.

End SnapshotMore.

(** ** Snapshot: the [children] accessor, further *)

Module ChildrenMore.
Import LiveDom.

(** X20: every call of [children] returns a new array object: a second
    call, on the same or another element, returns an array other than the
    first, leaves the first array and every array made before as they were,
    and neither call changes the child list of any element; the second
    array holds the children its element has, in the live subtree, at that
    call. *)
Theorem children_fresh (st : Store) (first second : nat) :
  let (a1, st1) := children first st in
  let (a2, st2) := children second st1 in
  a1 <> a2
  /\ childLists st2 = childLists st
  /\ array_items st2 a1 = Some (collection_items st (element_children first))
  /\ array_items st2 a2 = Some (collection_items st (element_children second))
  /\ forall a items, array_items st a = Some items ->
                     array_items st2 a = Some items.
Proof.
  unfold children, Array_from, array_items. cbn [arrays childLists fst snd].
  set (a1 := fresh (dom (arrays st))).
  set (items1 := collection_items st (element_children first)).
  set (arrays1 := <[a1 := items1]> (arrays st)).
  set (a2 := fresh (dom arrays1)).
  assert (H1 : a1 ∉ dom (arrays st)) by apply is_fresh.
  assert (H2 : a2 ∉ dom arrays1) by apply is_fresh.
  assert (Hne : a1 <> a2).
  { intros Heq. apply H2. rewrite <- Heq. subst arrays1.
    rewrite dom_insert_L. set_solver. }
  split; [exact Hne|]. split; [reflexivity|]. split.
  - rewrite lookup_insert_ne by congruence. subst arrays1.
    apply lookup_insert_eq.
  - split; [apply lookup_insert_eq|].
    intros a items Ha.
    assert (a <> a1) by (intros ->; apply H1, elem_of_dom; eauto).
    assert (a <> a2).
    { intros ->. apply H2. subst arrays1. rewrite dom_insert_L.
      apply elem_of_union_r, elem_of_dom. eauto. }
    rewrite lookup_insert_ne by congruence. subst arrays1.
    now rewrite lookup_insert_ne by congruence.
Qed.

End ChildrenMore.

